(** * BatchDataset: a shallow embedding of
      tensorflow/core/kernels/data/batch_dataset_op.cc

    The file follows the source top to bottom: the value types the kernel
    manipulates (statuses, shapes, tensors), the collaborators it calls
    (allocator, runner, upstream iterator, checkpoint reader and writer), the
    [Dataset] class with its derived shapes and cardinality, and the
    [Iterator] with [GetNextInternal], [SaveInternal] and [RestoreInternal].
    The properties are proved after the definitions. *)

From stdpp Require Import base list gmap strings.
From Stdlib Require Import ZArith Lia.

(** ** Statuses *)

Inductive DataType := DT_FLOAT | DT_INT32 | DT_INT64 | DT_BOOL | DT_STRING.

Global Instance DataType_eq_dec : EqDecision DataType.
Proof. solve_decision. Defined.

(** A concrete [TensorShape] has non-negative dimensions; a
    [PartialTensorShape] is a list of int64 dimensions where [-1] stands for
    an unknown size. *)
Abbreviation TensorShape := (list nat).
Abbreviation PartialTensorShape := (list Z).

Inductive Code :=
  | OK | CANCELLED | UNKNOWN | INVALID_ARGUMENT | OUT_OF_RANGE
  | RESOURCE_EXHAUSTED | UNIMPLEMENTED | INTERNAL | DATA_LOSS.

Global Instance Code_eq_dec : EqDecision Code.
Proof. solve_decision. Defined.

(** The arguments handed to [errors::InvalidArgument(...)] and friends are
    kept as they are passed (the source concatenates their printed forms). *)
Inductive MsgArg :=
  | MStr (s : string)
  | MNum (n : nat)
  | MShape (s : TensorShape).

Global Instance MsgArg_eq_dec : EqDecision MsgArg.
Proof. solve_decision. Defined.

Record Status := mkStatus { code : Code; message : list MsgArg }.

Global Instance Status_eq_dec : EqDecision Status.
Proof. solve_decision. Defined.

Definition Status_OK : Status := mkStatus OK [].

Definition ok (s : Status) : bool := bool_decide (code s = OK).

Module errors.
Definition InvalidArgument (args : list MsgArg) : Status :=
  mkStatus INVALID_ARGUMENT args.
Definition ResourceExhausted (args : list MsgArg) : Status :=
  mkStatus RESOURCE_EXHAUSTED args.
Definition Internal (args : list MsgArg) : Status :=
  mkStatus INTERNAL args.
Definition Unimplemented (args : list MsgArg) : Status :=
  mkStatus UNIMPLEMENTED args.
End errors.

(** Modelled from the spec: [Status::Update], declared outside this file.
    "First error wins": an OK status takes the new value, an error stays. *)
Definition Update (this new_status : Status) : Status :=
  if ok this then new_status else this.

(** ** Tensors *)

(** A tensor is a dtype, a shape and a flat row-major buffer; [None] is the
    buffer of a tensor whose allocation failed ([IsInitialized] is false). *)
Record Tensor := mkTensor {
  dtype : DataType;
  shape : TensorShape;
  buf : option (list Z)
}.

Global Instance Tensor_eq_dec : EqDecision Tensor.
Proof. solve_decision. Defined.

Global Instance Tensor_inhabited : Inhabited Tensor :=
  populate (mkTensor DT_FLOAT [] None).

Definition NumElements (s : TensorShape) : nat := foldr Nat.mul 1 s.

Definition IsInitialized (t : Tensor) : bool :=
  match buf t with Some _ => true | None => false end.

(** ** The execution context *)

(** What a call depends on besides its arguments. [alloc_ok k dt sh] tells
    whether the [k]-th buffer requested from [ctx->allocator({})] during the
    call, for a tensor of dtype [dt] and shape [sh], can be obtained.
    [runner_pick c j] drives [ctx->runner()]: among the copy tasks of
    component [c] that are still pending, the [j]-th one to finish is the one
    at position [runner_pick c j] (modulo their number). [runner_done c] is
    the number of copy tasks of component [c] that have finished by the time
    the call leaves the loop over the elements through its [return].
    [heap_ok n] tells whether the heap has room for the storage of [n] tuples
    that [batch_elements.reserve] asks for. *)
Record IteratorContext := mkContext {
  alloc_ok : nat → DataType → TensorShape → bool;
  runner_pick : nat → nat → nat;
  runner_done : nat → nat;
  heap_ok : Z → bool
}.

(** [Tensor(ctx->allocator({}), dtype, shape)]: a fresh zero-filled buffer, or
    an uninitialized tensor when the allocator has nothing to give. A tensor
    without elements asks the allocator for nothing and counts as
    initialized. *)
Definition Tensor_alloc (ctx : IteratorContext) (k : nat)
    (dt : DataType) (sh : TensorShape) : Tensor :=
  if bool_decide (NumElements sh = 0) || alloc_ok ctx k dt sh
  then mkTensor dt sh (Some (replicate (NumElements sh) 0%Z))
  else mkTensor dt sh None.

(** ** [std::vector] *)

(** [batch_elements] is a [std::vector<std::vector<Tensor>>]. An entry holds
    three pointers, 24 bytes where pointers have 64 bits, and no array takes
    more than [PTRDIFF_MAX] bytes: this bounds the number of entries. *)
Definition max_size : Z := ((2 ^ 63 - 1) `quot` 24)%Z.

(** The largest [int]. *)
Definition INT_MAX : Z := (2 ^ 31 - 1)%Z.

(** The conversion of an int64 to [size_t]. *)
Definition to_size_t (z : Z) : Z := (z `mod` 2 ^ 64)%Z.

(** [batch_elements.reserve(n)] on the vector just declared; [true] when the
    call returns. Beyond [max_size] entries it throws [std::length_error]; for
    no entry it has nothing to do; otherwise it takes the storage from the
    heap and throws [std::bad_alloc] when there is none. *)
Definition reserve (ctx : IteratorContext) (n : Z) : bool :=
  let n' := to_size_t n in
  bool_decide (n' ≤ max_size)%Z
  && (bool_decide (n' = 0%Z) || heap_ok ctx n').

(** ** The input dataset, as far as [Dataset] looks at it *)

Record DatasetBase := mkDatasetBase {
  in_output_dtypes : list DataType;
  in_output_shapes : list PartialTensorShape;
  in_Cardinality : Z
}.

(** Modelled from the spec: [PartialTensorShape::Concatenate], declared in
    partial_tensor_shape.h. The dimensions of the argument follow those of
    the receiver. *)
Definition Concatenate (this other : PartialTensorShape) : PartialTensorShape :=
  this ++ other.

(** int64 arithmetic, with the two's complement wrap-around written out. *)
Definition wrap64 (z : Z) : Z := ((z + 2 ^ 63) mod 2 ^ 64 - 2 ^ 63)%Z.

Definition int64_range (z : Z) : Prop := (- 2 ^ 63 ≤ z < 2 ^ 63)%Z.

Section Dataset.
(** The two sentinels are declared in dataset.h; the kernel only compares
    against them. *)
Variables kInfiniteCardinality kUnknownCardinality : Z.

Record Dataset := mkDataset {
  batch_size_ : Z;
  drop_remainder_ : bool;
  parallel_copy_ : bool;
  input_ : DatasetBase;
  op_version_ : Z;
  output_shapes_ : list PartialTensorShape
}.

(** The constructor [Dataset::Dataset]. *)
Definition Dataset_new (batch_size : Z) (drop_remainder parallel_copy : bool)
    (input : DatasetBase) (op_version : Z) : Dataset :=
  mkDataset batch_size drop_remainder parallel_copy input op_version
    (map (λ input_shape,
            if drop_remainder
            then Concatenate [batch_size] input_shape
            else Concatenate [(-1)%Z] input_shape)
         (in_output_shapes input)).

Definition output_dtypes (d : Dataset) : list DataType :=
  in_output_dtypes (input_ d).

Definition output_shapes (d : Dataset) : list PartialTensorShape :=
  output_shapes_ d.

(** [Dataset::Cardinality]. [/] and [%] of C++ truncate towards zero:
    [Z.quot] and [Z.rem]. *)
Definition Cardinality (d : Dataset) : Z :=
  let n := in_Cardinality (input_ d) in
  if bool_decide (n = kInfiniteCardinality)
     || bool_decide (n = kUnknownCardinality)
  then n
  else wrap64 (Z.quot n (batch_size_ d)
               + (if bool_decide (Z.rem n (batch_size_ d) = 0%Z)
                     || drop_remainder_ d
                  then 0 else 1))%Z.

(** [BatchDatasetOp::MakeDataset]: the batch size is checked before the
    dataset is built; [drop_remainder] is only read for the V2 op. *)
Definition MakeDataset (op_version : Z) (parallel_copy : bool)
    (batch_size : Z) (drop_remainder_arg : bool) (input : DatasetBase)
    : Status + Dataset :=
  if bool_decide (batch_size > 0)%Z
  then
    let drop_remainder :=
      if bool_decide (op_version > 1)%Z then drop_remainder_arg else false in
    inr (Dataset_new batch_size drop_remainder parallel_copy input op_version)
  else
    inl (errors.InvalidArgument [MStr "Batch size must be greater than zero."%string]).
End Dataset.

(** ** Checkpoints *)

(** [IteratorStateWriter] and [IteratorStateReader] see a checkpoint as scalars
    stored under string keys. *)
Inductive ScalarValue :=
  | ScalarString (s : string)
  | ScalarInt64 (z : Z).

Global Instance ScalarValue_eq_dec : EqDecision ScalarValue.
Proof. solve_decision. Defined.

Abbreviation Checkpoint := (gmap string ScalarValue).

(** Modelled from the spec: [IteratorStateWriter::WriteScalar] and
    [IteratorStateReader::Contains], declared in dataset.h. Writing stores the
    scalar under the key; [Contains] tells whether the key was written. *)
Definition WriteScalar (key : string) (val : ScalarValue) (writer : Checkpoint)
    : Status * Checkpoint :=
  (Status_OK, <[key := val]> writer).

Definition Contains (reader : Checkpoint) (key : string) : bool :=
  bool_decide (is_Some (reader !! key)).

Definition kInputImplEmpty : string := "input_impl_empty".

(** ** The upstream iterator *)

(** What the kernel calls on the object behind [input_impl_]. [GetNext] gives
    back the status, the tuple it produced, the value it left in
    [*end_of_sequence], and its own next state. *)
Class IteratorBase (U : Type) := {
  GetNext : IteratorContext → U → Status * list Tensor * bool * U;
  Save : U → Checkpoint → Status * Checkpoint;
  Restore : IteratorContext → Checkpoint → U → Status * U
}.

(** ** batch_util *)

Definition slice_size (parent : Tensor) : nat := NumElements (tail (shape parent)).

(** Modelled from the spec: [batch_util::CopyElementToSlice], declared in
    batch_util.h: "move value[i] into output container's slice i". The
    entries of [element] replace those of slice [index] along the outer
    dimension of [parent]. A value that is not one slice of [parent] (another
    dtype, another number of entries, no buffer) is refused and [parent] is
    left as it is. *)
Definition CopyElementToSlice (element parent : Tensor) (index : nat)
    : Status * Tensor :=
  match buf element, buf parent with
  | Some src, Some dst =>
      if bool_decide (dtype element = dtype parent)
         && bool_decide (length src = slice_size parent)
      then (Status_OK,
            mkTensor (dtype parent) (shape parent)
              (Some (list_inserts (index * slice_size parent) src dst)))
      else (errors.Internal
              [MStr "Cannot copy slice: the element does not match. Shapes are: "%string;
               MShape (shape element); MShape (tail (shape parent))], parent)
  | _, _ =>
      (errors.Internal
         [MStr "Cannot copy slice: uninitialized tensor."%string], parent)
  end.

(** ** The runner *)

(** The order in which the copy tasks handed to [ctx->runner()] finish: at
    step [j] the task at position [pick j] (modulo the number pending) among
    those still pending is the next to finish. Every task finishes once. *)
Fixpoint completion_order (pick : nat → nat) (j : nat) (fuel : nat)
    (pending : list nat) : list nat :=
  match fuel with
  | 0 => []
  | S fuel' =>
      let p := pick j `mod` length pending in
      match pending !! p with
      | Some t => t :: completion_order pick (S j) fuel' (delete p pending)
      | None => []
      end
  end.

(** ** The batch assembler: the second half of [GetNextInternal] *)

(** [batch_elements[i][component_index]]. Reading outside the vectors is
    undefined in the source; here it yields an uninitialized tensor. *)
Definition element_at (batch_elements : list (list Tensor))
    (i component_index : nat) : Tensor :=
  (batch_elements !!! i) !!! component_index.

(** The lambda [copy_element_fn], with [batch_component] passed explicitly. *)
Definition copy_element_fn (component_index : nat)
    (batch_elements : list (list Tensor)) (batch_component : Tensor)
    (index : nat) : Status * Tensor :=
  CopyElementToSlice (element_at batch_elements index component_index)
    batch_component index.

(** What the loop over the batch elements leaves behind: the shared [status],
    the output tensor, and the tasks handed to the runner so far. *)
Record CopyState := mkCopyState {
  cs_status : Status;
  cs_component : Tensor;
  cs_scheduled : list nat
}.

(** One task body: copy, then [status.Update(s)] under the lock. *)
Definition run_task (component_index : nat)
    (batch_elements : list (list Tensor)) (st : Status * Tensor) (i : nat)
    : Status * Tensor :=
  let '(s, batch_component) :=
    copy_element_fn component_index batch_elements (st.2) i in
  (Update (st.1) s, batch_component).

(** [for (size_t i = 0; i < num_batch_elements; ++i)]: [todo] iterations are
    left, the next index is [i]. The result is [inl (i, shape)] when the loop
    is left by the [return errors::InvalidArgument(...)] of index [i]. *)
Fixpoint copy_loop (parallel_copy : bool) (component_index : nat)
    (batch_elements : list (list Tensor)) (first_element_shape : TensorShape)
    (todo i : nat) (st : CopyState) : (nat * TensorShape) * CopyState + CopyState :=
  match todo with
  | 0 => inr st
  | S todo' =>
      let sh := shape (element_at batch_elements i component_index) in
      if bool_decide (sh ≠ first_element_shape)
      then inl ((i, sh), st)
      else if parallel_copy
      then
        copy_loop parallel_copy component_index batch_elements
          first_element_shape todo' (S i)
          (mkCopyState (cs_status st) (cs_component st) (cs_scheduled st ++ [i]))
      else
        let '(status, batch_component) :=
          run_task component_index batch_elements
            (cs_status st, cs_component st) i in
        copy_loop parallel_copy component_index batch_elements
          first_element_shape todo' (S i)
          (mkCopyState status batch_component (cs_scheduled st))
  end.

(** [counter.Wait()]: every task handed to the runner has finished, in the
    order the runner chose. *)
Definition Wait (ctx : IteratorContext) (component_index : nat)
    (batch_elements : list (list Tensor)) (st : CopyState) : Status * Tensor :=
  foldl (run_task component_index batch_elements)
    (cs_status st, cs_component st)
    (completion_order (runner_pick ctx component_index) 0
       (length (cs_scheduled st)) (cs_scheduled st)).

(** The outcome of the assembler: [asm_return] is the status of a [return]
    taken inside the loop over the components ([None]: the loop ran to its
    end); [asm_out] is [*out_tensors]; [asm_unjoined] lists the copy tasks
    (component, index) that were handed to the runner and that the call did
    not wait for. *)
Record Assembly := mkAssembly {
  asm_return : option Status;
  asm_out : list Tensor;
  asm_unjoined : list (nat * nat)
}.

(** The copy tasks that have finished when the loop over the elements is
    left through its [return]: the first [runner_done] ones in the order the
    runner lets them finish. *)
Definition finished (ctx : IteratorContext) (component_index : nat)
    (st : CopyState) : list nat :=
  take (runner_done ctx component_index)
    (completion_order (runner_pick ctx component_index) 0
       (length (cs_scheduled st)) (cs_scheduled st)).

(** The body of the loop over the components. [batch_component] refers to
    [out_tensors->back()]: what is copied into it is in [*out_tensors]. When
    the loop over the elements is left early in parallel mode, nothing waits
    for the tasks handed out: the tensor holds what the tasks that have
    finished by then wrote, and all the tasks handed out are listed in
    [asm_unjoined]. *)
Definition assemble_component (ctx : IteratorContext) (parallel_copy : bool)
    (batch_elements : list (list Tensor)) (component_index : nat)
    (out_tensors : list Tensor) : Assembly :=
  let first_element := element_at batch_elements 0 component_index in
  let num_batch_elements := length batch_elements in
  let first_element_shape := shape first_element in
  let batch_component_shape := num_batch_elements :: first_element_shape in
  let allocated :=
    Tensor_alloc ctx component_index (dtype first_element) batch_component_shape in
  if negb (IsInitialized allocated)
  then mkAssembly
         (Some (errors.ResourceExhausted
                  [MStr "Failed to allocate memory for the batch of component "%string;
                   MNum component_index]))
         (out_tensors ++ [allocated]) []
  else
    match copy_loop parallel_copy component_index batch_elements
            first_element_shape num_batch_elements 0
            (mkCopyState Status_OK allocated []) with
    | inl ((i, sh), st) =>
        mkAssembly
          (Some (errors.InvalidArgument
                   [MStr "Cannot batch tensors with different shapes in component "%string;
                    MNum component_index;
                    MStr ". First element had shape "%string;
                    MShape first_element_shape;
                    MStr " and element "%string; MNum i;
                    MStr " had shape "%string; MShape sh; MStr "."%string]))
          (out_tensors
           ++ [(foldl (run_task component_index batch_elements)
                  (cs_status st, cs_component st)
                  (finished ctx component_index st)).2])
          (map (pair component_index) (cs_scheduled st))
    | inr st =>
        let '(status, batch_component) := Wait ctx component_index batch_elements st in
        mkAssembly (if ok status then None else Some status)
          (out_tensors ++ [batch_component]) []
    end.

(** [for (component_index = 0; component_index < num_tuple_components; ...)]:
    [todo] components are left. *)
Fixpoint assemble_loop (ctx : IteratorContext) (parallel_copy : bool)
    (batch_elements : list (list Tensor)) (todo component_index : nat)
    (out_tensors : list Tensor) : Assembly :=
  match todo with
  | 0 => mkAssembly None out_tensors []
  | S todo' =>
      let a := assemble_component ctx parallel_copy batch_elements
                 component_index out_tensors in
      match asm_return a with
      | Some _ => a
      | None =>
          assemble_loop ctx parallel_copy batch_elements todo'
            (S component_index) (asm_out a)
      end
  end.

Definition assemble (ctx : IteratorContext) (parallel_copy : bool)
    (batch_elements : list (list Tensor)) (out_tensors : list Tensor) : Assembly :=
  let num_tuple_components := length (batch_elements !!! 0) in
  assemble_loop ctx parallel_copy batch_elements num_tuple_components 0 out_tensors.

(** ** The iterator *)

Record Iterator (U : Type) := mkIterator { input_impl_ : option U }.
Arguments mkIterator {U} _.
Arguments input_impl_ {U} _.

(** What a call of [GetNextInternal] hands back: the returned status, the
    caller's [*out_tensors] and [*end_of_sequence] as the call leaves them,
    and the copy tasks the call did not wait for. *)
Record GetNextResult := mkResult {
  gn_status : Status;
  gn_out_tensors : list Tensor;
  gn_end_of_sequence : bool;
  gn_unjoined : list (nat * nat)
}.

(** [TF_RETURN_IF_ERROR(s); return Status::OK();] *)
Definition return_if_error (s : Status) : Status :=
  if ok s then Status_OK else s.

Section Iterator.
Context {U : Type} `{!IteratorBase U}.

(** [prefix()] and [full_name(...)] come from the iterator's [Params]. *)
Variable prefix : string.
Variable full_name : string → string.

(** [Initialize]: [make_input] is [dataset()->input_->MakeIterator]. *)
Definition Initialize
    (make_input : IteratorContext → string → Status * option U)
    (ctx : IteratorContext) (it : Iterator U) : Status * Iterator U :=
  let '(s, h) := make_input ctx prefix in (s, mkIterator h).

(** [for (int i = 0; i < dataset()->batch_size_ && !*end_of_sequence; ++i)],
    entered with [*end_of_sequence = false]: [todo] iterations are left. The
    result is the status, [*end_of_sequence], [input_impl_] and
    [batch_elements] when the loop is left (by its condition, or by
    [TF_RETURN_IF_ERROR]). The counter is an [int] compared with an int64:
    the loop is followed here as long as the counter has room, which
    [counter_overflows] below tells. *)
Fixpoint pull_loop (ctx : IteratorContext) (todo : nat) (u : U)
    (batch_elements : list (list Tensor))
    : Status * bool * option U * list (list Tensor) :=
  match todo with
  | 0 => (Status_OK, false, Some u, batch_elements)
  | S todo' =>
      let '(s, batch_element_tuple, end_of_sequence, u') := GetNext ctx u in
      if negb (ok s)
      then (s, end_of_sequence, Some u', batch_elements)
      else if negb end_of_sequence
      then pull_loop ctx todo' u' (batch_elements ++ [batch_element_tuple])
      else (Status_OK, true, None, batch_elements)
  end.

(** The counter [i] of the pull loop is an [int], which [++i] advances after
    every pull that did not return, the one that signalled end-of-sequence
    included; at [INT_MAX] its behaviour is undefined. What the loop leaves
    tells whether this happened: [batch_elements] holds one tuple per pull
    that produced one. *)
Definition counter_overflows
    (pulled : Status * bool * option U * list (list Tensor)) : bool :=
  let '(s, end_of_sequence, _, batch_elements) := pulled in
  bool_decide (INT_MAX < Z.of_nat (length batch_elements)
                         + (if ok s && end_of_sequence then 1 else 0))%Z.

(** [GetNextInternal] from [*end_of_sequence = false] on (lines 145 to 238):
    the call on the iterator [u] behind [input_impl_], once [batch_elements]
    has its storage. The comparison of [batch_elements.size()] with
    [batch_size_] is only reached with a non-empty [batch_elements], hence
    with a positive batch size, for which the conversion to an unsigned value
    changes nothing. *)
Definition next_batch (d : Dataset) (ctx : IteratorContext)
    (u : U) (out_tensors : list Tensor)
    : GetNextResult * Iterator U :=
  let '(s, end_of_sequence, input_impl, batch_elements) :=
    pull_loop ctx (Z.to_nat (batch_size_ d)) u [] in
  let it' := mkIterator input_impl in
  if negb (ok s)
  then (mkResult s out_tensors end_of_sequence [], it')
  else if bool_decide (batch_elements = [])
  then (mkResult Status_OK out_tensors end_of_sequence [], it')
  else if drop_remainder_ d
          && bool_decide (Z.of_nat (length batch_elements) < batch_size_ d)%Z
  then (mkResult Status_OK out_tensors true [], it')
  else
    let a := assemble ctx (parallel_copy_ d) batch_elements out_tensors in
    match asm_return a with
    | Some s' =>
        (mkResult s' (asm_out a) end_of_sequence (asm_unjoined a), it')
    | None => (mkResult Status_OK (asm_out a) false [], it')
    end.

(** [GetNextInternal]. The result is [None] when the call has no result:
    [batch_elements.reserve(dataset()->batch_size_)] (line 144) throws when
    the vector cannot have that many entries, and the behaviour is undefined
    when the pull loop (line 146) takes its counter past [INT_MAX]. *)
Definition GetNextInternal (d : Dataset) (ctx : IteratorContext)
    (it : Iterator U) (out_tensors : list Tensor)
    : option (GetNextResult * Iterator U) :=
  match input_impl_ it with
  | None => Some (mkResult Status_OK out_tensors true [], it)
  | Some u =>
      if negb (reserve ctx (batch_size_ d)) then None
      else if counter_overflows
                (pull_loop ctx (Z.to_nat (batch_size_ d)) u [])
      then None
      else Some (next_batch d ctx u out_tensors)
  end.

(** [SaveInternal]. *)
Definition SaveInternal (it : Iterator U) (writer : Checkpoint)
    : Status * Checkpoint :=
  match input_impl_ it with
  | None =>
      let '(s, writer') :=
        WriteScalar (full_name kInputImplEmpty) (ScalarString ""%string) writer in
      (return_if_error s, writer')
  | Some u =>
      let '(s, writer') := Save u writer in
      (return_if_error s, writer')
  end.

(** [RestoreInternal]. [RestoreInput] calls [Restore] through [input_impl_]:
    with no iterator behind it the source goes through a null pointer, and
    the call has no result ([None]). *)
Definition RestoreInternal (ctx : IteratorContext) (reader : Checkpoint)
    (it : Iterator U) : option (Status * Iterator U) :=
  if negb (Contains reader (full_name kInputImplEmpty))
  then
    match input_impl_ it with
    | Some u =>
        let '(s, u') := Restore ctx reader u in
        Some (return_if_error s, mkIterator (Some u'))
    | None => None
    end
  else Some (Status_OK, mkIterator None).

(** A consumer that pulls once per context of [ctxs], each time with an empty
    [out_tensors]; it gets nowhere once a call does not return. *)
Fixpoint run (d : Dataset) (ctxs : list IteratorContext) (it : Iterator U)
    : option (list GetNextResult * Iterator U) :=
  match ctxs with
  | [] => Some ([], it)
  | ctx :: ctxs' =>
      match GetNextInternal d ctx it [] with
      | Some (r, it') =>
          match run d ctxs' it' with
          | Some (rs, it'') => Some (r :: rs, it'')
          | None => None
          end
      | None => None
      end
  end.
End Iterator.

(** ** An upstream over a finite sequence *)

(** The iterator of a dataset that holds its tuples in memory: the tuples and
    the position of the next one to hand out. Its checkpoint is the
    position. *)
Record SliceIterator := mkSlice { items : list (list Tensor); pos : nat }.

Definition kSlicePosition : string := "slice_position".

Global Instance SliceIterator_base : IteratorBase SliceIterator := {
  GetNext ctx u :=
    match items u !! pos u with
    | Some t => (Status_OK, t, false, mkSlice (items u) (S (pos u)))
    | None => (Status_OK, [], true, u)
    end;
  Save u writer :=
    WriteScalar kSlicePosition (ScalarInt64 (Z.of_nat (pos u))) writer;
  Restore ctx reader u :=
    match reader !! kSlicePosition with
    | Some (ScalarInt64 z) => (Status_OK, mkSlice (items u) (Z.to_nat z))
    | _ => (mkStatus DATA_LOSS [MStr kSlicePosition], u)
    end
}.

(** ** Notions used to state the properties *)


(** The state of the upstream iterator [u] after [k] pulls. *)
Definition advance {U} `{!IteratorBase U} (ctx : IteratorContext) (k : nat)
    (u : U) : U :=
  Nat.iter k (λ u', (GetNext ctx u').2) u.

(** Two iterators whose handles are both absent, or both present and related
    by [R]. *)
Definition handles_related {U} (R : U → U → Prop) (it1 it2 : Iterator U) : Prop :=
  option_Forall2 R (input_impl_ it1) (input_impl_ it2).

(** Two slice iterators that have the same tuples left to hand out, and two
    slice iterators over the same tuples. *)
Definition same_remaining (u1 u2 : SliceIterator) : Prop :=
  drop (pos u1) (items u1) = drop (pos u2) (items u2).

Definition same_items (u0 u : SliceIterator) : Prop := items u0 = items u.

(** The index of the first element of the batch whose value for slot [c] has
    another shape than the value of element 0. *)
Definition offending (batch_elements : list (list Tensor)) (c : nat)
    : option nat :=
  fst <$> list_find
    (λ e, shape (e !!! c) ≠ shape (element_at batch_elements 0 c))
    batch_elements.

(** Slot [c] of the batch goes through the assembler without a [return]. *)
Definition slot_passes (ctx : IteratorContext) (parallel_copy : bool)
    (batch_elements : list (list Tensor)) (c : nat) : Prop :=
  ∀ out_tensors,
    asm_return (assemble_component ctx parallel_copy batch_elements c out_tensors)
    = None.

(** The status that names slot [c], the shape [first] of element 0, the
    index [i] and the shape [sh] of the element found to differ. *)
Definition shape_mismatch (c : nat) (first : TensorShape) (i : nat)
    (sh : TensorShape) : Status :=
  errors.InvalidArgument
    [MStr "Cannot batch tensors with different shapes in component "%string;
     MNum c; MStr ". First element had shape "%string; MShape first;
     MStr " and element "%string; MNum i;
     MStr " had shape "%string; MShape sh; MStr "."%string].


(** Two states of the shared status and output tensor that are both OK or
    both in error, with the same tensor. *)
Definition alike (a b : Status * Tensor) : Prop :=
  ok a.1 = ok b.1 ∧ a.2 = b.2.

(** Two outcomes of the assembler: both ran to the end with the same
    [*out_tensors], or both returned an error. *)
Definition asm_alike (a1 a2 : Assembly) : Prop :=
  (asm_return a1 = None ∧ a1 = a2)
  ∨ (is_Some (asm_return a1) ∧ is_Some (asm_return a2)).


(** ** What a batch is expected to be *)

(** The container of slot [c] for a group of tuples: the dtype of the first
    value, the number of tuples in front of its shape, and the values of the
    tuples one after the other. *)
Definition stack_slot (group : list (list Tensor)) (c : nat) : Tensor :=
  let first := element_at group 0 c in
  mkTensor (dtype first) (length group :: shape first)
    (Some (concat (map (λ e, default [] (buf (e !!! c))) group))).

Definition stacked (group : list (list Tensor)) : list Tensor :=
  map (stack_slot group) (seq 0 (length (group !!! 0))).

(** The groups the spec asks for: [n / b] groups of [b] consecutive tuples,
    then the [n mod b] tuples that are left, as a last group when
    [drop_remainder] is false and some are left. *)
Definition full_batches {A} (b : nat) (l : list A) : list (list A) :=
  map (λ k, take b (drop (k * b) l)) (seq 0 (length l / b)).

Definition remainder {A} (b : nat) (l : list A) : list A :=
  drop (length l / b * b) l.

Definition batches {A} (b : nat) (drop_remainder : bool) (l : list A)
    : list (list A) :=
  full_batches b l
  ++ (if negb drop_remainder && negb (bool_decide (length (remainder b l) = 0))
      then [remainder b l] else []).

(** A tuple whose values have the dtypes and shapes of [sig], each with a
    buffer of as many entries as its shape says. *)
Definition conforms (sig : list (DataType * TensorShape)) (e : list Tensor)
    : Prop :=
  Forall2 (λ t ds, dtype t = ds.1 ∧ shape t = ds.2
                   ∧ ∃ b, buf t = Some b ∧ length b = NumElements ds.2)
    e sig.

(** A context whose allocator never fails. *)
Definition generous (ctx : IteratorContext) : Prop :=
  ∀ k dt sh, alloc_ok ctx k dt sh = true.

(** The result of a call that emits the batch of [group], and the result of
    a call that reports end-of-sequence. *)
Definition emitted (group : list (list Tensor)) : GetNextResult :=
  mkResult Status_OK (stacked group) false [].

Definition end_result : GetNextResult := mkResult Status_OK [] true [].

(** ** Sample data *)

(** A context whose allocator always succeeds and whose runner finishes the
    tasks in the order they were handed out; one whose allocator has nothing
    left; one whose runner lets the second of the pending tasks finish
    first. In all three the heap has room for the accumulation list, and no
    copy task has finished when the loop over the elements is left early. *)
Definition plentiful : IteratorContext :=
  mkContext (λ _ _ _, true) (λ _ _, 0) (λ _, 0) (λ _, true).
Definition exhausted_memory : IteratorContext :=
  mkContext (λ _ _ _, false) (λ _ _, 0) (λ _, 0) (λ _, true).
Definition out_of_order : IteratorContext :=
  mkContext (λ _ _ _, true) (λ _ _, 1) (λ _, 0) (λ _, true).

(** A float tensor of the given shape with every entry equal to [v]. *)
Definition filled (sh : TensorShape) (v : Z) : Tensor :=
  mkTensor DT_FLOAT sh (Some (replicate (NumElements sh) v)).

(** Three one-slot tuples of shapes (2,3), (2,3), (2,4), and what a
    sequential call on them leaves in [*out_tensors]: the container of slot 0
    with the slices of the first two tuples. *)
Definition ragged : list (list Tensor) :=
  [[filled [2; 3] 1]; [filled [2; 3] 2]; [filled [2; 4] 3]].

Definition ragged_partial : list Tensor :=
  [mkTensor DT_FLOAT [3; 2; 3]
     (Some [1; 1; 1; 1; 1; 1; 2; 2; 2; 2; 2; 2; 0; 0; 0; 0; 0; 0]%Z)].

(** Two two-slot tuples whose shapes differ in both slots. *)
Definition ragged_twice : list (list Tensor) :=
  [[filled [2] 1; filled [2; 3] 1]; [filled [3] 2; filled [2; 4] 2]].

(** Seven one-slot tuples holding the scalars 1 to 7. *)
Definition seven : list (list Tensor) :=
  map (λ v, [filled [] v]) [1; 2; 3; 4; 5; 6; 7]%Z.

(** A dataset of the V2 op whose input is only looked at through its
    iterator, and the checkpoint keys of its iterator. *)
Definition batch_of (b : Z) (drop par : bool) : Dataset :=
  Dataset_new b drop par (mkDatasetBase [DT_FLOAT] [[]] (-2)) 2.

Definition batch_full_name (name : string) : string :=
  ("Iterator::Batch:" ++ name)%string.

(** ** The kernel [BatchDatasetOp] *)

(** What the kernel reads from its construction context: the name of the op
    in the node definition and the attributes of the node; and from the
    context of a call: the scalar arguments by name. *)
Inductive AttrValue :=
  | AttrBool (b : bool)
  | AttrInt (i : Z).

Record OpKernelConstruction := mkConstruction {
  def_op : string;
  def_attr : gmap string AttrValue
}.

Inductive ArgValue :=
  | ArgInt64 (z : Z)
  | ArgBool (b : bool).

Definition kBatchDataset : string := "BatchDataset".

(** The names declared in batch_dataset_op.h. *)
Definition kBatchSize : string := "batch_size".
Definition kDropRemainder : string := "drop_remainder".
Definition kParallelCopy : string := "parallel_copy".

Definition HasAttr (ctx : OpKernelConstruction) (name : string) : bool :=
  bool_decide (is_Some (def_attr ctx !! name)).

(** Modelled from the spec: [OpKernelConstruction::GetAttr] for a bool and
    [ParseScalarArgument], declared outside this file. They give the value
    stored under the name, or an [InvalidArgument] status when there is none
    of the type asked for. *)
Definition GetAttr_bool (ctx : OpKernelConstruction) (name : string)
    : Status * bool :=
  match def_attr ctx !! name with
  | Some (AttrBool b) => (Status_OK, b)
  | _ => (errors.InvalidArgument [MStr name], false)
  end.

Definition ParseScalarArgument_int64 (args : gmap string ArgValue)
    (name : string) : Status * Z :=
  match args !! name with
  | Some (ArgInt64 z) => (Status_OK, z)
  | _ => (errors.InvalidArgument [MStr name], 0%Z)
  end.

Definition ParseScalarArgument_bool (args : gmap string ArgValue)
    (name : string) : Status * bool :=
  match args !! name with
  | Some (ArgBool b) => (Status_OK, b)
  | _ => (errors.InvalidArgument [MStr name], false)
  end.

(** The kernel object. Its [parallel_copy_] starts as false (the default of
    the attribute). *)
Record BatchDatasetOp := mkBatchDatasetOp {
  kernel_op_version_ : Z;
  kernel_parallel_copy_ : bool
}.

(** The constructor [BatchDatasetOp::BatchDatasetOp]: [OP_REQUIRES_OK] gives
    up the construction with the status of [GetAttr]. *)
Definition BatchDatasetOp_new (ctx : OpKernelConstruction)
    : Status + BatchDatasetOp :=
  let op_version := if bool_decide (def_op ctx = kBatchDataset) then 1%Z else 2%Z in
  if HasAttr ctx kParallelCopy
  then
    let '(s, parallel_copy) := GetAttr_bool ctx kParallelCopy in
    if ok s then inr (mkBatchDatasetOp op_version parallel_copy) else inl s
  else inr (mkBatchDatasetOp op_version false).

(** [BatchDatasetOp::MakeDataset] with the parsing of its arguments: each
    [OP_REQUIRES_OK] and [OP_REQUIRES] gives up with its status. *)
Definition BatchDatasetOp_MakeDataset (k : BatchDatasetOp)
    (args : gmap string ArgValue) (input : DatasetBase) : Status + Dataset :=
  let '(s, batch_size) := ParseScalarArgument_int64 args kBatchSize in
  if negb (ok s) then inl s
  else if negb (bool_decide (batch_size > 0)%Z)
  then inl (errors.InvalidArgument
              [MStr "Batch size must be greater than zero."%string])
  else
    let '(s', drop_remainder) :=
      if bool_decide (kernel_op_version_ k > 1)%Z
      then ParseScalarArgument_bool args kDropRemainder
      else (Status_OK, false) in
    if negb (ok s') then inl s'
    else inr (Dataset_new batch_size drop_remainder (kernel_parallel_copy_ k)
                input (kernel_op_version_ k)).

(** ** More notions used to state the properties *)

(** A shape that a partial shape allows: as many dimensions, each of them
    unknown in the partial shape or the same. *)
Definition compatible (p : PartialTensorShape) (s : TensorShape) : Prop :=
  Forall2 (λ pd sd, pd = (-1)%Z ∨ pd = Z.of_nat sd) p s.

(** A tuple that has the dtypes and shapes its dataset declares. *)
Definition honours (input : DatasetBase) (e : list Tensor) : Prop :=
  map dtype e = in_output_dtypes input
  ∧ Forall2 compatible (in_output_shapes input) (map shape e).

(** What the [j]-th pull (from 0) of the upstream iterator [u] answers. *)
Definition nth_pull {U} `{!IteratorBase U} (ctx : IteratorContext) (u : U)
    (j : nat) : Status * list Tensor * bool * U :=
  GetNext ctx (advance ctx j u).

(** A dataset of the V2 op over an input of cardinality [n]. *)
Definition batch_of_card (n b : Z) (drop : bool) : Dataset :=
  Dataset_new b drop false (mkDatasetBase [DT_FLOAT] [[]] n) 2.

(** The values delivered for slot [c] by a sequence of results, one result
    after the other. *)
Definition slot_values (c : nat) (rs : list GetNextResult) : list Z :=
  concat (map (λ r, default [] (buf (gn_out_tensors r !!! c))) rs).

(** ** Notions and sample data for calls that do not go through *)

(** A context in which a call on an iterator of [d] gets the storage that
    [batch_elements.reserve] asks for; a dataset whose batch size the counter
    of the pull loop can reach. *)
Definition reserves (d : Dataset) (ctx : IteratorContext) : Prop :=
  reserve ctx (batch_size_ d) = true.

Definition counts (d : Dataset) : Prop := (batch_size_ d ≤ INT_MAX)%Z.

(** A group of tuples that can be stacked: they conform to one
    signature. *)
Definition uniform (group : list (list Tensor)) : Prop :=
  ∃ sig, Forall (conforms sig) group.




(** A context in which one copy task has finished when the loop over the
    elements is left early, and the container that a parallel call on the
    three tuples of shapes (2,3), (2,3), (2,4) then leaves: the slice of the
    first tuple is written, the task of the second is still to run. *)
Definition hasty : IteratorContext :=
  mkContext (λ _ _ _, true) (λ _ _, 0) (λ _, 1) (λ _, true).

Definition ragged_started : list Tensor :=
  [mkTensor DT_FLOAT [3; 2; 3]
     (Some [1; 1; 1; 1; 1; 1; 0; 0; 0; 0; 0; 0; 0; 0; 0; 0; 0; 0]%Z)].

(** A context whose heap has no room for the accumulation list. *)
Definition cramped : IteratorContext :=
  mkContext (λ _ _ _, true) (λ _ _, 0) (λ _, 0) (λ _, false).

(** Four one-slot tuples, two of shape (2) followed by two of shape (3):
    ragged as a whole, uniform in pairs. *)
Definition two_and_two : list (list Tensor) :=
  [[filled [2] 1]; [filled [2] 2]; [filled [3] 3]; [filled [3] 4]].

(** * Properties *)

(** ** The descriptor *)

Section DatasetProperties.
Variables kInfiniteCardinality kUnknownCardinality : Z.
Hypothesis infinite_is_no_count : (kInfiniteCardinality < 0)%Z.
Hypothesis unknown_is_no_count : (kUnknownCardinality < 0)%Z.

Lemma wrap64_id z : int64_range z → wrap64 z = z.
Proof.
  unfold int64_range, wrap64. intros Hz.
  rewrite Z.mod_small; lia.
Qed.

Lemma Cardinality_sentinel d :
  in_Cardinality (input_ d) = kInfiniteCardinality
  ∨ in_Cardinality (input_ d) = kUnknownCardinality →
  Cardinality kInfiniteCardinality kUnknownCardinality d
  = in_Cardinality (input_ d).
Proof.
  intros Hn. unfold Cardinality.
  destruct Hn as [Hn|Hn]; rewrite Hn;
    repeat case_bool_decide; simpl; congruence.
Qed.

Lemma Cardinality_finite d :
  let n := in_Cardinality (input_ d) in
  let b := batch_size_ d in
  (0 ≤ n < 2 ^ 63)%Z → (b > 0)%Z →
  Cardinality kInfiniteCardinality kUnknownCardinality d
  = (n `div` b
     + if bool_decide (n `mod` b ≠ 0) && negb (drop_remainder_ d)
       then 1 else 0)%Z.
Proof.
  intros n b Hn Hb. unfold Cardinality. fold n b.
  rewrite !bool_decide_eq_false_2 by lia. simpl.
  rewrite Z.quot_div_nonneg, Z.rem_mod_nonneg by lia.
  assert (0 ≤ n `div` b)%Z by (apply Z.div_pos; lia).
  assert (n `div` b ≤ n)%Z by (apply Z.div_le_upper_bound; nia).
  assert (b = 1 → n `mod` b = 0)%Z by (intros ->; apply Z.mod_1_r).
  assert (2 ≤ b → n `div` b ≤ 2 ^ 62)%Z.
  { intros. apply Z.div_le_upper_bound; lia. }
  rewrite wrap64_id.
  - repeat case_bool_decide; destruct (drop_remainder_ d); simpl; congruence.
  - unfold int64_range.
    repeat case_bool_decide; destruct (drop_remainder_ d); simpl; lia.
Qed.

(** C1. With sentinels that are no counts, for an upstream of finite known
    cardinality [n] and a batch size [b > 0], [Cardinality] is
    [n / b], plus one when [n mod b ≠ 0] and [drop_remainder] is false; an
    upstream cardinality that is one of the two sentinels is returned
    unchanged; ten elements in batches of three give 4 batches, and 3 when
    the remainder is dropped. *)
Theorem cardinality_spec (b : Z) (drop par : bool) (input : DatasetBase) (v : Z) :
  (b > 0)%Z →
  let d := Dataset_new b drop par input v in
  let n := in_Cardinality input in
  let card := Cardinality kInfiniteCardinality kUnknownCardinality in
  ((0 ≤ n < 2 ^ 63)%Z →
     card d = (n `div` b
               + if bool_decide (n `mod` b ≠ 0) && negb drop then 1 else 0)%Z)
  ∧ (n = kInfiniteCardinality ∨ n = kUnknownCardinality → card d = n)
  ∧ (∀ ts ss, card (Dataset_new 3 false par (mkDatasetBase ts ss 10) v) = 4%Z)
  ∧ (∀ ts ss, card (Dataset_new 3 true par (mkDatasetBase ts ss 10) v) = 3%Z).
Proof.
  intros Hb d n card. repeat split.
  - intros Hn. apply (Cardinality_finite d); done.
  - intros Hn. apply (Cardinality_sentinel d); done.
  - intros ts ss. unfold card. rewrite Cardinality_finite; simpl; done.
  - intros ts ss. unfold card. rewrite Cardinality_finite; simpl; done.
Qed.
End DatasetProperties.

(** C1 at the sentinels -1 and -2, for 10 elements in batches of 3. *)
Lemma cardinality_spec_witness :
  Cardinality (-1) (-2)
    (Dataset_new 3 false false (mkDatasetBase [DT_FLOAT] [[2%Z]] 10) 2)
  = 4%Z.
Proof.
  pose proof (cardinality_spec (-1) (-2) eq_refl eq_refl 3 false false
                (mkDatasetBase [DT_FLOAT] [[2%Z]] 10) 2 eq_refl) as [H _].
  rewrite H; [reflexivity | simpl; lia].
Defined.

(** C9. [output_shapes] gives, for each upstream slot, the upstream shape
    behind one more outer dimension, which is [batch_size] when
    [drop_remainder] is true and unknown ([-1]) otherwise; [output_dtypes]
    is that of the upstream. *)
Theorem output_shapes_spec (b : Z) (drop par : bool) (input : DatasetBase) (v : Z) :
  let d := Dataset_new b drop par input v in
  output_shapes d
  = map (λ sh, (if drop then b else (-1)%Z) :: sh) (in_output_shapes input)
  ∧ length (output_shapes d) = length (in_output_shapes input)
  ∧ (∀ k sh, in_output_shapes input !! k = Some sh →
       output_shapes d !! k = Some ((if drop then b else (-1)%Z) :: sh)
       ∧ tail ((if drop then b else (-1)%Z) :: sh) = sh)
  ∧ output_dtypes d = in_output_dtypes input.
Proof.
  unfold output_shapes, output_dtypes, Dataset_new.
  cbn [output_shapes_ input_ in_output_dtypes].
  assert (Hmap : map (λ input_shape,
                   if drop then Concatenate [b] input_shape
                   else Concatenate [(-1)%Z] input_shape) (in_output_shapes input)
          = map (λ sh, (if drop then b else (-1)%Z) :: sh) (in_output_shapes input)).
  { apply map_ext. intros sh. destruct drop; reflexivity. }
  rewrite Hmap. split; [done|]. split; [apply length_map|]. split; [|done].
  intros k sh Hk. split; [|done].
  match goal with |- map ?f ?l !! _ = _ => change (map f l) with (f <$> l) end.
  rewrite list_lookup_fmap, Hk. done.
Qed.

(** ** The pull loop *)

Section PullLoop.
Context {U : Type} `{!IteratorBase U}.

Lemma ok_Status_OK : ok Status_OK = true.
Proof. reflexivity. Qed.

(** A loop that ends without an error either filled the batch and kept the
    handle, or met end-of-sequence before and dropped it. *)
Lemma pull_loop_ok ctx todo (u : U) acc s eos h be :
  pull_loop ctx todo u acc = (s, eos, h, be) → ok s = true →
  s = Status_OK ∧ ∃ got, be = acc ++ got
    ∧ ((eos = false ∧ is_Some h ∧ length got = todo)
       ∨ (eos = true ∧ h = None ∧ length got < todo)).
Proof.
  revert u acc. induction todo as [|todo IH]; intros u acc Hp Hs; simpl in Hp.
  - simplify_eq. split; [done|]. exists []. rewrite app_nil_r.
    split; [done|]. left. eauto.
  - destruct (GetNext ctx u) as [[[s1 t] e] u'].
    destruct (ok s1) eqn:Hs1; simpl in Hp.
    + destruct e; simpl in Hp.
      * simplify_eq. split; [done|]. exists []. rewrite app_nil_r.
        split; [done|]. right. repeat split; simpl; lia.
      * apply IH in Hp as (-> & got & -> & Hgot); [|done].
        split; [done|]. exists (t :: got).
        rewrite <- app_assoc. split; [done|]. simpl.
        destruct Hgot as [(?&?&?)|(?&?&?)]; [left|right]; repeat split; auto; lia.
    + simplify_eq. congruence.
Qed.

(** A loop left by an upstream error keeps the handle. *)
Lemma pull_loop_error ctx todo (u : U) acc s eos h be :
  pull_loop ctx todo u acc = (s, eos, h, be) → ok s = false → is_Some h.
Proof.
  revert u acc. induction todo as [|todo IH]; intros u acc Hp Hs; simpl in Hp.
  - simplify_eq; eauto.
  - destruct (GetNext ctx u) as [[[s1 t] e] u'].
    destruct (ok s1) eqn:Hs1; simpl in Hp.
    + destruct e; simpl in Hp; [simplify_eq; done|]. by eapply IH.
    + simplify_eq; eauto.
Qed.

End PullLoop.

(** ** The iterator as a state machine *)

Section GetNext.
Context {U : Type} `{!IteratorBase U}.

(** A call on a live handle returns exactly when the reservation is
    granted and the pull loop leaves its counter an [int], and then with
    what the rest of the function gives. *)
Lemma GetNextInternal_Some d ctx (u : U) out x :
  GetNextInternal d ctx (mkIterator (Some u)) out = Some x
  ↔ reserve ctx (batch_size_ d) = true
    ∧ counter_overflows (pull_loop ctx (Z.to_nat (batch_size_ d)) u [])
      = false
    ∧ next_batch d ctx u out = x.
Proof.
  unfold GetNextInternal. simpl.
  destruct (reserve _ _), (counter_overflows _); simpl; split;
    try done; try (by intros (? & ? & ?)).
  - by intros [= <-].
  - by intros (_ & _ & ->).
Qed.

(** The loop makes at most [todo] pulls followed by [++i]. *)
Lemma pull_loop_count ctx todo :
  ∀ (u : U) acc s eos h be,
    pull_loop ctx todo u acc = (s, eos, h, be) →
    length be + (if ok s && eos then 1 else 0) ≤ length acc + todo.
Proof.
  induction todo as [|todo IH]; intros u acc s eos h be Hp; simpl in Hp.
  - simplify_eq. simpl. lia.
  - destruct (GetNext ctx u) as [[[s1 t] e] u'].
    destruct (ok s1) eqn:Hs1; simpl in Hp.
    + destruct e; simpl in Hp.
      * simplify_eq. simpl. lia.
      * apply IH in Hp. rewrite length_app in Hp. simpl in Hp. lia.
    + simplify_eq. rewrite Hs1. simpl. lia.
Qed.

Lemma pull_loop_counts d ctx (u : U) :
  counts d →
  counter_overflows (pull_loop ctx (Z.to_nat (batch_size_ d)) u []) = false.
Proof.
  unfold counts, counter_overflows, INT_MAX. intros Hd.
  destruct (pull_loop ctx (Z.to_nat (batch_size_ d)) u [])
    as [[[s eos] h] be] eqn:Hp.
  apply pull_loop_count in Hp. simpl in Hp.
  apply bool_decide_eq_false. destruct (ok s && eos); lia.
Qed.

Lemma GetNextInternal_reserved d ctx (u : U) out :
  reserve ctx (batch_size_ d) = true → counts d →
  GetNextInternal d ctx (mkIterator (Some u)) out
  = Some (next_batch d ctx u out).
Proof.
  intros Hres Hd. apply GetNextInternal_Some.
  split; [done|]. split; [|done]. by apply pull_loop_counts.
Qed.

(** The assembler does not touch the handle: whatever a call returns, the
    iterator is left as the pull loop left it. *)
Lemma next_batch_state d ctx (u : U) out r it' :
  next_batch d ctx u out = (r, it') →
  it' = mkIterator (pull_loop ctx (Z.to_nat (batch_size_ d)) u []).1.2.
Proof.
  unfold next_batch.
  destruct (pull_loop _ _ _ _) as [[[s eos] h] be]. simpl.
  repeat case_match; intros; by simplify_eq.
Qed.

Lemma GetNextInternal_exhausted d ctx out :
  GetNextInternal d ctx (mkIterator (@None U)) out
  = Some (mkResult Status_OK out true [], mkIterator None).
Proof. reflexivity. Qed.

Lemma run_exhausted d ctxs :
  run d ctxs (mkIterator (@None U))
  = Some (map (λ _, mkResult Status_OK [] true []) ctxs, mkIterator None).
Proof.
  induction ctxs as [|ctx ctxs IH]; [done|].
  simpl. rewrite IH. done.
Qed.

(** C6. Once a call has returned OK with [end_of_sequence] set, the handle is
    absent, and every later call, whatever its context, returns OK with
    [end_of_sequence] set, leaves [out_tensors] alone and the iterator as it
    is, without a pull from the upstream. *)
Theorem end_of_sequence_is_terminal d ctx (it : Iterator U) out r it' :
  GetNextInternal d ctx it out = Some (r, it') →
  ok (gn_status r) = true →
  gn_end_of_sequence r = true →
  input_impl_ it' = None
  ∧ (∀ ctx' out',
       GetNextInternal d ctx' it' out'
       = Some (mkResult Status_OK out' true [], it'))
  ∧ (∀ ctxs,
       run d ctxs it'
       = Some (map (λ _, mkResult Status_OK [] true []) ctxs, it')).
Proof.
  intros Hg Hok Heos.
  assert (Hnone : input_impl_ it' = None).
  { destruct it as [[u|]]; [|by inversion Hg].
    apply GetNextInternal_Some in Hg as (_ & _ & Hg).
    pose proof (next_batch_state _ _ _ _ _ _ Hg) as ->. simpl.
    unfold next_batch in Hg.
    destruct (pull_loop ctx (Z.to_nat (batch_size_ d)) u [])
      as [[[s eos] h] be] eqn:Hp. simpl.
    destruct (ok s) eqn:Hs; simpl in Hg; [|simplify_eq; simpl in *; congruence].
    apply pull_loop_ok in Hp as (-> & got & Hbe & Hcase); [|done].
    destruct Hcase as [(-> & Hh & Hlen)|(-> & -> & Hlen)]; [|done].
    simpl in Hbe. subst be.
    repeat case_match; simplify_eq; simpl in *; try congruence.
    match goal with
    | H : _ && _ = true |- _ => apply andb_true_iff in H as [_ H];
        apply bool_decide_eq_true in H; lia
    end. }
  destruct it' as [h']. simpl in Hnone. subst h'.
  split; [done|]. split.
  - intros. apply GetNextInternal_exhausted.
  - apply run_exhausted.
Qed.
End GetNext.

(** C6 on an upstream that has nothing to give. *)
Lemma end_of_sequence_is_terminal_witness :
  run (batch_of 3 false false) [plentiful; out_of_order]
    (mkIterator (@None SliceIterator))
  = Some ([mkResult Status_OK [] true []; mkResult Status_OK [] true []],
          mkIterator None).
Proof.
  refine (proj2 (proj2 (end_of_sequence_is_terminal
            (batch_of 3 false false) plentiful
            (mkIterator (Some (mkSlice [] 0))) []
            (mkResult Status_OK [] true []) (mkIterator None) _ _ _))
            [plentiful; out_of_order]);
    vm_compute; reflexivity.
Defined.

(** ** The assembler and [*out_tensors] *)

Lemma assemble_component_out ctx par be c out :
  ∃ t, asm_out (assemble_component ctx par be c out) = out ++ [t].
Proof.
  unfold assemble_component.
  destruct (negb _); [eauto|].
  destruct (copy_loop _ _ _ _ _ _ _) as [[[i sh] st]|st]; [simpl; eauto|].
  destruct (Wait _ _ _ _); eauto.
Qed.

(** The assembler only appends to [*out_tensors]: one tensor per slot it
    started, at least one when it returns early. *)
Lemma assemble_loop_out ctx par be todo c out :
  ∃ extra,
    asm_out (assemble_loop ctx par be todo c out) = out ++ extra
    ∧ length extra ≤ todo
    ∧ (is_Some (asm_return (assemble_loop ctx par be todo c out)) →
       1 ≤ length extra).
Proof.
  revert c out. induction todo as [|todo IH]; intros c out; simpl.
  - exists []. rewrite app_nil_r. split; [done|]. split; [simpl; lia|].
    by intros [? ?].
  - destruct (assemble_component_out ctx par be c out) as [t Ht].
    destruct (asm_return (assemble_component ctx par be c out)) eqn:Hr.
    + exists [t]. split; [done|]. split; simpl; intros; lia.
    + destruct (IH (S c) (asm_out (assemble_component ctx par be c out)))
        as (extra & Hout & Hlen & Hsome).
      exists (t :: extra). rewrite Hout, Ht, <- app_assoc.
      split; [done|]. split; simpl; intros; lia.
Qed.

(** ** Errors *)


(** ** Shape validation *)

(** C3, as stated, fails. With an allocator that has nothing left, the call
    on three tuples of shapes (2,3), (2,3), (2,4) returns [ResourceExhausted],
    not [InvalidArgument]. With two tuples whose shapes differ in slot 0 and
    in slot 1, the status names slot 0 and its shapes, not slot 1. *)
Lemma shape_mismatch_not_always_reported :
  (offending ragged 0 = Some 2
   ∧ gn_status ∘ fst
       <$> GetNextInternal (batch_of 3 false false) exhausted_memory
             (mkIterator (Some (mkSlice ragged 0))) []
     = Some (errors.ResourceExhausted
               [MStr "Failed to allocate memory for the batch of component "%string;
                MNum 0]))
  ∧ (offending ragged_twice 1 = Some 1
     ∧ gn_status ∘ fst
         <$> GetNextInternal (batch_of 2 false false) plentiful
               (mkIterator (Some (mkSlice ragged_twice 0))) []
       = Some (shape_mismatch 0 [2] 1 [3])
     ∧ shape_mismatch 0 [2] 1 [3] ≠ shape_mismatch 1 [2; 3] 1 [2; 4]).
Proof. vm_compute. repeat split. discriminate. Qed.

(** The element loop leaves by its [return] at the first index whose shape
    differs from the first element's. *)
Lemma copy_loop_mismatch par c be first k :
  ∀ todo i0 st,
    k < todo →
    (∀ j, i0 ≤ j < i0 + k → shape (element_at be j c) = first) →
    shape (element_at be (i0 + k) c) ≠ first →
    ∃ st', copy_loop par c be first todo i0 st
           = inl ((i0 + k, shape (element_at be (i0 + k) c)), st').
Proof.
  induction k as [|k IH]; intros todo i0 st Hk Hsame Hdiff.
  - destruct todo as [|todo]; [lia|]. simpl.
    rewrite Nat.add_0_r in *.
    rewrite bool_decide_eq_true_2 by done. eauto.
  - destruct todo as [|todo]; [lia|]. simpl.
    rewrite bool_decide_eq_false_2 by (intros Hne; apply Hne, Hsame; lia).
    replace (i0 + S k) with (S i0 + k) in * by lia.
    destruct par.
    + apply IH; [lia| |done]. intros j Hj. apply Hsame. lia.
    + destruct (run_task _ _ _ _) as [status comp].
      apply IH; [lia| |done]. intros j Hj. apply Hsame. lia.
Qed.

Lemma offending_Some be c i :
  offending be c = Some i →
  i < length be
  ∧ shape (element_at be i c) ≠ shape (element_at be 0 c)
  ∧ ∀ j, j < i → shape (element_at be j c) = shape (element_at be 0 c).
Proof.
  unfold offending. intros Hf.
  apply fmap_Some in Hf as ([i' e] & Hf & ->). simpl.
  apply list_find_Some in Hf as (Hi & Hne & Hbefore).
  split; [by eapply lookup_lt_Some|]. split.
  - unfold element_at at 1. by rewrite (list_lookup_total_correct _ _ _ Hi).
  - intros j Hj.
    destruct (lookup_lt_is_Some_2 be j) as [e' He'].
    { apply lookup_lt_Some in Hi. lia. }
    specialize (Hbefore j e' He' Hj).
    unfold element_at at 1. rewrite (list_lookup_total_correct _ _ _ He').
    by apply dec_stable.
Qed.

(** The slots before [c] pass: the loop over the components reaches [c], and
    a [return] taken there is the outcome of the loop. *)
Lemma assemble_loop_reaches ctx par be c e :
  (∀ out', asm_return (assemble_component ctx par be c out') = Some e) →
  ∀ todo c0 out,
    c0 ≤ c < c0 + todo →
    (∀ c', c0 ≤ c' < c → slot_passes ctx par be c') →
    asm_return (assemble_loop ctx par be todo c0 out) = Some e.
Proof.
  intros He. induction todo as [|todo IH]; intros c0 out Hc Hpass; [lia|].
  simpl. destruct (decide (c0 = c)) as [->|Hne].
  - rewrite He. apply He.
  - rewrite (Hpass c0) by lia. apply IH; [lia|]. intros. apply Hpass. lia.
Qed.

(** C3, amended. When the slots before [c] pass, the allocation for slot
    [c] succeeds and [i] is the first index whose value for slot [c] has
    another shape than element 0's, the assembler returns [InvalidArgument]
    with the slot [c], the shape of element 0, the index [i] and the shape
    found there; and so does [GetNextInternal] when the batch is the one it
    pulled, the call having got the storage for its accumulation list and its
    pull loop having left its counter an [int]. *)
Theorem shape_mismatch_reported ctx par be c i :
  c < length (be !!! 0) →
  (∀ c', c' < c → slot_passes ctx par be c') →
  alloc_ok ctx c (dtype (element_at be 0 c))
    (length be :: shape (element_at be 0 c)) = true →
  offending be c = Some i →
  let err := shape_mismatch c (shape (element_at be 0 c)) i
               (shape (element_at be i c)) in
  (∀ out, asm_return (assemble ctx par be out) = Some err)
  ∧ (∀ U (HU : IteratorBase U) d (u : U) out eos h,
       reserve ctx (batch_size_ d) = true →
       pull_loop ctx (Z.to_nat (batch_size_ d)) u [] = (Status_OK, eos, h, be) →
       counter_overflows (Status_OK, eos, h, be) = false →
       parallel_copy_ d = par →
       drop_remainder_ d = false
       ∨ (batch_size_ d ≤ Z.of_nat (length be))%Z →
       ∃ r it',
         GetNextInternal d ctx (mkIterator (Some u)) out = Some (r, it')
         ∧ gn_status r = err).
Proof.
  intros Hc Hpass Halloc Hoff err.
  destruct (offending_Some _ _ _ Hoff) as (Hi & Hdiff & Hsame).
  assert (Hasm : ∀ out, asm_return (assemble ctx par be out) = Some err).
  { intros out. unfold assemble.
    apply (assemble_loop_reaches ctx par be c); [|lia|intros; apply Hpass; lia].
    intros out'. unfold assemble_component, Tensor_alloc.
    rewrite Halloc, orb_true_r. simpl.
    destruct (copy_loop_mismatch par c be (shape (element_at be 0 c)) i
                (length be) 0
                (mkCopyState Status_OK
                   (mkTensor (dtype (element_at be 0 c))
                      (length be :: shape (element_at be 0 c))
                      (Some (replicate
                               (length be * NumElements (shape (element_at be 0 c)))
                               0%Z))) []))
      as [st' Hloop]; [done|intros; apply Hsame; lia|done|].
    simpl in Hloop. rewrite Hloop. done. }
  split; [done|].
  intros U HU d u out eos h Hres Hp Hcount Hpar Hkeep.
  destruct (next_batch d ctx u out) as [r it'] eqn:Hnext.
  exists r, it'. split.
  { apply GetNextInternal_Some. by rewrite Hp. }
  unfold next_batch in Hnext. rewrite Hp in Hnext. simpl in Hnext.
  rewrite bool_decide_eq_false_2 in Hnext by (intros ->; simpl in Hi; lia).
  assert (drop_remainder_ d
          && bool_decide (Z.of_nat (length be) < batch_size_ d)%Z = false)
    as Hdrop.
  { destruct Hkeep as [->|Hge]; [done|].
    rewrite bool_decide_eq_false_2 by lia. apply andb_false_r. }
  rewrite Hdrop, Hpar, Hasm in Hnext. by simplify_eq.
Qed.

(** C3, amended, on three tuples of shapes (2,3), (2,3), (2,4): the status
    names slot 0, the shape (2,3), the index 2 and the shape (2,4). *)
Lemma shape_mismatch_reported_witness :
  (∀ out, asm_return (assemble plentiful false ragged out)
          = Some (shape_mismatch 0 [2; 3] 2 [2; 4]))
  ∧ ∃ r it',
      GetNextInternal (batch_of 3 false false) plentiful
        (mkIterator (Some (mkSlice ragged 0))) [] = Some (r, it')
      ∧ gn_status r = shape_mismatch 0 [2; 3] 2 [2; 4].
Proof.
  assert (H0 : 0 < length (ragged !!! 0)) by (vm_compute; lia).
  assert (Hp : ∀ c', c' < 0 → slot_passes plentiful false ragged c')
    by (intros c' Hc'; lia).
  destruct (shape_mismatch_reported plentiful false ragged 0 2 H0 Hp
              eq_refl eq_refl) as [Hasm Hget].
  split; [exact Hasm|].
  refine (Hget SliceIterator _ (batch_of 3 false false) (mkSlice ragged 0) []
            false (Some (mkSlice ragged 3)) _ _ _ eq_refl (or_introl eq_refl));
    vm_compute; reflexivity.
Defined.

(** ** Copy tasks that are not waited for *)

(** The returns that wait for the copy tasks leave none behind: tasks are
    left unjoined only by the return taken on a shape that differs. *)
Lemma assemble_component_unjoined ctx par be c out :
  asm_unjoined (assemble_component ctx par be c out) ≠ [] →
  ∃ i sh,
    asm_return (assemble_component ctx par be c out)
    = Some (shape_mismatch c (shape (element_at be 0 c)) i sh).
Proof.
  unfold assemble_component. destruct (negb _); [done|].
  destruct (copy_loop _ _ _ _ _ _ _) as [[[i sh] st]|st]; simpl.
  - eauto.
  - by destruct (Wait _ _ _ _).
Qed.

Lemma assemble_loop_unjoined ctx par be todo :
  ∀ c out,
    asm_unjoined (assemble_loop ctx par be todo c out) ≠ [] →
    ∃ c' i sh,
      asm_return (assemble_loop ctx par be todo c out)
      = Some (shape_mismatch c' (shape (element_at be 0 c')) i sh).
Proof.
  induction todo as [|todo IH]; intros c out; simpl; [done|].
  destruct (asm_return (assemble_component ctx par be c out)) eqn:Hr.
  - intros Hu. destruct (assemble_component_unjoined _ _ _ _ _ Hu) as (i & sh & H).
    eauto.
  - apply IH.
Qed.

(** C4 is not met by the code. In parallel mode, on three tuples of shapes
    (2,3), (2,3), (2,4), the call returns [InvalidArgument] from inside the
    element loop: the copy tasks of indices 0 and 1 of slot 0 were handed to
    the runner and [counter.Wait()] is not reached. In sequential mode
    nothing is left behind. *)
Lemma shape_mismatch_leaves_tasks_unjoined :
  match GetNextInternal (batch_of 3 false true) plentiful
          (mkIterator (Some (mkSlice ragged 0))) [],
        GetNextInternal (batch_of 3 false false) plentiful
          (mkIterator (Some (mkSlice ragged 0))) [] with
  | Some (rp, _), Some (rs, _) =>
      gn_status rp = shape_mismatch 0 [2; 3] 2 [2; 4]
      ∧ gn_unjoined rp = [(0, 0); (0, 1)]
      ∧ gn_unjoined rs = []
  | _, _ => False
  end.
Proof. vm_compute. repeat split. Qed.

(** ** Upstream iterators that behave alike *)

Section Bisimulation.
Context {U : Type} `{!IteratorBase U}.
Variable R : U → U → Prop.
Hypothesis R_GetNext : ∀ ctx u1 u2,
  R u1 u2 →
  (GetNext ctx u1).1 = (GetNext ctx u2).1
  ∧ R (GetNext ctx u1).2 (GetNext ctx u2).2.

Lemma pull_loop_related ctx todo :
  ∀ u1 u2 acc,
    R u1 u2 →
    ∃ s eos h1 h2 be,
      pull_loop ctx todo u1 acc = (s, eos, h1, be)
      ∧ pull_loop ctx todo u2 acc = (s, eos, h2, be)
      ∧ option_Forall2 R h1 h2.
Proof.
  induction todo as [|todo IH]; intros u1 u2 acc HR; simpl.
  - exists Status_OK, false, (Some u1), (Some u2), acc.
    repeat split. by constructor.
  - destruct (R_GetNext ctx u1 u2 HR) as [Heq HR'].
    destruct (GetNext ctx u1) as [[[s1 t1] e1] u1'].
    destruct (GetNext ctx u2) as [[[s2 t2] e2] u2'].
    simpl in *. simplify_eq.
    destruct (ok s2); simpl.
    + destruct e2; simpl.
      * exists Status_OK, true, None, None, acc. repeat split. constructor.
      * by apply IH.
    + exists s2, e2, (Some u1'), (Some u2'), acc. repeat split. by constructor.
Qed.

(** Related handles give the same result, and related handles again. *)
Lemma next_batch_related d ctx u1 u2 out :
  R u1 u2 →
  (next_batch d ctx u1 out).1 = (next_batch d ctx u2 out).1
  ∧ handles_related R (next_batch d ctx u1 out).2 (next_batch d ctx u2 out).2.
Proof.
  intros HR. unfold next_batch, handles_related.
  destruct (pull_loop_related ctx (Z.to_nat (batch_size_ d)) u1 u2 [] HR)
    as (s & eos & h1' & h2' & be & -> & -> & Hh).
  repeat case_match; simpl; done.
Qed.

(** Two calls on related handles both return or both do not; when they
    return, they give the same result and related handles again. *)
Lemma GetNextInternal_related d ctx it1 it2 out :
  handles_related R it1 it2 →
  option_Forall2 (λ x y, x.1 = y.1 ∧ handles_related R x.2 y.2)
    (GetNextInternal d ctx it1 out) (GetNextInternal d ctx it2 out).
Proof.
  destruct it1 as [h1], it2 as [h2]. unfold handles_related. simpl.
  intros [u1 u2 HR|].
  - unfold GetNextInternal. simpl.
    destruct (reserve ctx (batch_size_ d)); simpl; [|constructor].
    assert (Hcount :
      counter_overflows (pull_loop ctx (Z.to_nat (batch_size_ d)) u1 [])
      = counter_overflows (pull_loop ctx (Z.to_nat (batch_size_ d)) u2 [])).
    { destruct (pull_loop_related ctx (Z.to_nat (batch_size_ d)) u1 u2 [] HR)
        as (s & eos & h1' & h2' & be & -> & -> & _). done. }
    rewrite Hcount. clear Hcount. destruct (counter_overflows _); constructor.
    by apply next_batch_related.
  - constructor. split; [done|]. constructor.
Qed.

Lemma run_related d ctxs :
  ∀ it1 it2,
    handles_related R it1 it2 →
    option_Forall2 (λ x y, x.1 = y.1 ∧ handles_related R x.2 y.2)
      (run d ctxs it1) (run d ctxs it2).
Proof.
  induction ctxs as [|ctx ctxs IH]; intros it1 it2 Hrel.
  - by constructor.
  - simpl.
    destruct (GetNextInternal_related d ctx it1 it2 [] Hrel)
      as [[r1 it1'] [r2 it2'] [Hr Hrel']|]; [|constructor].
    simpl in *. subst r2.
    destruct (IH it1' it2' Hrel') as [[rs1 it1''] [rs2 it2''] [Hrs Hrel'']|];
      [|constructor].
    simpl in *. subst rs2. by constructor.
Qed.

(** The results of two runs on related handles are the same. *)
Lemma run_related_results d ctxs it1 it2 :
  handles_related R it1 it2 →
  fst <$> run d ctxs it1 = fst <$> run d ctxs it2.
Proof.
  intros Hrel.
  destruct (run_related d ctxs it1 it2 Hrel) as [x y [Hxy _]|]; [|done].
  simpl. by rewrite Hxy.
Qed.
End Bisimulation.

(** ** The iterator over a finite sequence *)

(** The pull loop on a slice iterator: [todo] tuples when that many are left,
    otherwise all that are left and end-of-sequence. *)
Lemma slice_pull_loop ctx todo :
  ∀ its p acc,
    pull_loop ctx todo (mkSlice its p) acc
    = if decide (todo ≤ length (drop p its))
      then (Status_OK, false, Some (mkSlice its (p + todo)),
            acc ++ take todo (drop p its))
      else (Status_OK, true, None, acc ++ drop p its).
Proof.
  induction todo as [|todo IH]; intros its p acc.
  - simpl. by rewrite Nat.add_0_r, app_nil_r.
  - simpl. destruct (its !! p) as [x|] eqn:Hx; simpl.
    + rewrite IH. rewrite (drop_S _ _ _ Hx). simpl.
      rewrite <- app_assoc. simpl.
      replace (S (p + todo)) with (p + S todo) by lia.
      repeat case_decide; rewrite <- ?app_assoc; try done; lia.
    + rewrite (drop_ge its p) by (by apply lookup_ge_None).
      simpl. by rewrite app_nil_r.
Qed.

Lemma same_remaining_GetNext ctx u1 u2 :
  same_remaining u1 u2 →
  (GetNext ctx u1).1 = (GetNext ctx u2).1
  ∧ same_remaining (GetNext ctx u1).2 (GetNext ctx u2).2.
Proof.
  unfold same_remaining. destruct u1 as [i1 p1], u2 as [i2 p2]. simpl.
  intros Hrem.
  destruct (i1 !! p1) as [x1|] eqn:H1, (i2 !! p2) as [x2|] eqn:H2; simpl.
  - rewrite (drop_S _ _ _ H1), (drop_S _ _ _ H2) in Hrem. by simplify_eq.
  - rewrite (drop_S _ _ _ H1) in Hrem.
    rewrite (drop_ge i2 p2) in Hrem by (by apply lookup_ge_None). done.
  - rewrite (drop_S _ _ _ H2) in Hrem.
    rewrite (drop_ge i1 p1) in Hrem by (by apply lookup_ge_None). done.
  - done.
Qed.

(** On a slice iterator with nothing left every call reports
    end-of-sequence. *)
Lemma next_batch_nothing_left d ctx its p out :
  (0 < batch_size_ d)%Z → length its ≤ p →
  next_batch d ctx (mkSlice its p) out
  = (mkResult Status_OK out true [], mkIterator None).
Proof.
  intros Hb Hp. unfold next_batch. rewrite slice_pull_loop.
  rewrite drop_ge by done. simpl.
  case_decide; [lia|]. done.
Qed.

Lemma run_nothing_left d ctxs its p :
  (0 < batch_size_ d)%Z → length its ≤ p → Forall (reserves d) ctxs →
  fst <$> run d ctxs (mkIterator (Some (mkSlice its p)))
  = Some (map (λ _, end_result) ctxs).
Proof.
  intros Hb Hp Hres. destruct ctxs as [|ctx ctxs]; [done|].
  apply Forall_cons in Hres as [Hctx _].
  assert (Hcall : GetNextInternal d ctx (mkIterator (Some (mkSlice its p))) []
                  = Some (end_result, mkIterator None)).
  { apply GetNextInternal_Some. split; [done|].
    split; [|by apply next_batch_nothing_left].
    rewrite slice_pull_loop, drop_ge by done. simpl.
    case_decide; [lia|]. done. }
  simpl run. rewrite Hcall, run_exhausted. done.
Qed.

Lemma pull_loop_advance {U} `{!IteratorBase U} ctx todo :
  ∀ (u : U) acc s h be,
    pull_loop ctx todo u acc = (s, false, h, be) → ok s = true →
    h = Some (advance ctx todo u).
Proof.
  induction todo as [|todo IH]; intros u acc s h be Hp Hs; simpl in Hp.
  - by simplify_eq.
  - unfold advance. rewrite Nat.iter_succ_r. fold (advance ctx todo).
    destruct (GetNext ctx u) as [[[s1 t] e] u']. simpl.
    destruct (ok s1) eqn:Hs1; simpl in Hp; [|simplify_eq; congruence].
    destruct e; simpl in Hp; [by simplify_eq|]. by eapply IH.
Qed.

(** C10. For every upstream, a call whose pulls went through and whose
    assembly failed leaves the handle absent (the upstream signalled
    end-of-sequence) or at the upstream state reached after [batch_size]
    pulls. On a finite sequence: after a failed call the iterator stands
    behind the [batch_size] tuples it pulled, and all later calls return what
    an iterator over the tuples behind them alone returns (both stop
    returning at the same call, if at all); or it is exhausted when fewer
    were left, and all later calls return end-of-sequence, which is what an
    iterator over no tuple returns wherever its calls get their storage. *)
Theorem failed_call_discards_pulled :
  (∀ U (HU : IteratorBase U) d ctx (u : U) out r it',
     GetNextInternal d ctx (mkIterator (Some u)) out = Some (r, it') →
     ok (gn_status r) = false →
     ok (pull_loop ctx (Z.to_nat (batch_size_ d)) u []).1.1.1 = true →
     it' = mkIterator None
     ∨ it' = mkIterator (Some (advance ctx (Z.to_nat (batch_size_ d)) u)))
  ∧ (∀ d ctx its p out r it',
       GetNextInternal d ctx (mkIterator (Some (mkSlice its p))) out
       = Some (r, it') →
       ok (gn_status r) = false →
       let b := Z.to_nat (batch_size_ d) in
       let behind := mkIterator (Some (mkSlice (drop (p + b) its) 0)) in
       (it' = mkIterator (Some (mkSlice its (p + b))) ∧ p + b ≤ length its
        ∧ ∀ ctxs, fst <$> run d ctxs it' = fst <$> run d ctxs behind)
       ∨ (it' = mkIterator None ∧ length its < p + b
          ∧ ∀ ctxs,
              run d ctxs it' = Some (map (λ _, end_result) ctxs, it')
              ∧ (Forall (reserves d) ctxs →
                 fst <$> run d ctxs it' = fst <$> run d ctxs behind))).
Proof.
  split.
  - intros U HU d ctx u out r it' Hg Hr Hs.
    apply GetNextInternal_Some in Hg as (_ & _ & Hg).
    rewrite (next_batch_state _ _ _ _ _ _ Hg).
    destruct (pull_loop ctx (Z.to_nat (batch_size_ d)) u [])
      as [[[s eos] h] be] eqn:Hp. simpl in *.
    destruct eos.
    + apply pull_loop_ok in Hp as (_ & got & _ & [(?&_)|(_&->&_)]); [done|auto|done].
    + right. f_equal. by eapply pull_loop_advance.
  - intros d ctx its p out r it' Hg Hr b behind.
    apply GetNextInternal_Some in Hg as (_ & _ & Hg).
    pose proof (next_batch_state _ _ _ _ _ _ Hg) as Hit.
    unfold next_batch in Hg.
    rewrite slice_pull_loop in Hg, Hit. fold b in Hg, Hit.
    assert (Hbdef : b = Z.to_nat (batch_size_ d)) by done. clearbody b.
    assert (Hb : 0 < b).
    { destruct b; [|lia]. exfalso. simpl in Hg. by simplify_eq. }
    pose proof (length_drop its p) as Hlen.
    destruct (decide (b ≤ length (drop p its))) as [Hle|Hgt]; simpl in Hit.
    + left. split; [done|]. split; [lia|].
      intros ctxs. subst it'.
      apply (run_related_results same_remaining same_remaining_GetNext).
      unfold handles_related. simpl. constructor.
      unfold same_remaining. done.
    + right. split; [done|]. split; [lia|].
      intros ctxs. subst it'. split; [apply run_exhausted|].
      intros Hres. rewrite run_exhausted. unfold behind.
      rewrite run_nothing_left; [done|lia| |done].
      rewrite length_drop. simpl. lia.
Qed.

(** C10 on the three tuples of shapes (2,3), (2,3), (2,4) followed by seven
    scalars: after the failed call, the next call returns what an iterator
    over the seven scalars returns. *)
Lemma failed_call_discards_pulled_witness :
  fst <$> run (batch_of 3 false false) [plentiful]
            (mkIterator (Some (mkSlice (ragged ++ seven) 3)))
  = fst <$> run (batch_of 3 false false) [plentiful]
              (mkIterator (Some (mkSlice seven 0))).
Proof.
  destruct (proj2 failed_call_discards_pulled
              (batch_of 3 false false) plentiful (ragged ++ seven) 0 []
              (mkResult (shape_mismatch 0 [2; 3] 2 [2; 4]) ragged_partial
                 false [])
              (mkIterator (Some (mkSlice (ragged ++ seven) 3)))
              eq_refl eq_refl) as [(_ & _ & Hrun)|(Hnone & _)].
  - exact (Hrun [plentiful]).
  - discriminate Hnone.
Defined.

(** ** Checkpoints *)

Lemma ok_return_if_error s : ok (return_if_error s) = ok s.
Proof. unfold return_if_error. by destruct (ok s) eqn:E. Qed.

Section Checkpointing.
Context {U : Type} `{!IteratorBase U}.
Variable full_name : string → string.

(** What is expected of the upstream iterator. [R] relates upstream states
    that answer every pull alike; [T u0 u] says that [u0] can be restored
    from a checkpoint of [u] (they iterate over the same input). The
    upstream does not write under the key of this iterator, and restoring
    what it saved gives a state that behaves like the saved one. *)
Variables R T : U → U → Prop.
Hypothesis R_GetNext : ∀ ctx u1 u2,
  R u1 u2 →
  (GetNext ctx u1).1 = (GetNext ctx u2).1
  ∧ R (GetNext ctx u1).2 (GetNext ctx u2).2.
Hypothesis Save_other_keys : ∀ u (w : Checkpoint),
  (Save u w).2 !! full_name kInputImplEmpty = w !! full_name kInputImplEmpty.
Hypothesis Restore_Save : ∀ ctx u u0 (w : Checkpoint),
  ok (Save u w).1 = true → T u0 u →
  ok (Restore ctx (Save u w).2 u0).1 = true
  ∧ R (Restore ctx (Save u w).2 u0).2 u.

(** C7. A checkpoint written by [SaveInternal] into a writer that does not
    hold the key of this iterator is the writer with the exhausted mark
    added when the handle is absent, and what the upstream iterator saved
    otherwise. [RestoreInternal] on it, in the same iterator or in any
    iterator whose handle can take the upstream checkpoint, succeeds and
    gives an iterator whose handle is absent, or behaves like the saved one,
    accordingly; every sequence of later calls returns the same results as on
    the saved iterator, or stops returning at the same call. *)
Theorem save_restore_roundtrip ctx (it tgt : Iterator U) (w w' : Checkpoint) s :
  w !! full_name kInputImplEmpty = None →
  SaveInternal full_name it w = (s, w') →
  ok s = true →
  (∀ u, input_impl_ it = Some u → ∃ u0, input_impl_ tgt = Some u0 ∧ T u0 u) →
  (input_impl_ it = None →
     w' = <[full_name kInputImplEmpty := ScalarString ""%string]> w)
  ∧ (∀ u, input_impl_ it = Some u → w' = (Save u w).2)
  ∧ ∃ it',
      RestoreInternal full_name ctx w' tgt = Some (Status_OK, it')
      ∧ handles_related R it' it
      ∧ ∀ d ctxs, fst <$> run d ctxs it' = fst <$> run d ctxs it.
Proof.
  intros Hfresh Hsave Hs Htgt.
  destruct it as [[u|]]; unfold SaveInternal in Hsave; simpl in *.
  - destruct (Save u w) as [s1 w1] eqn:Hsv. simplify_eq.
    assert (Hs1 : ok s1 = true) by (by rewrite <- ok_return_if_error).
    split; [done|]. split; [by intros ? [= <-]; rewrite Hsv|].
    destruct (Htgt u eq_refl) as (u0 & Htg & HT).
    destruct tgt as [h]. simpl in Htg. subst h.
    pose proof (Save_other_keys u w) as Hkey. rewrite Hsv in Hkey. simpl in Hkey.
    pose proof (Restore_Save ctx u u0 w) as Hrs. rewrite Hsv in Hrs. simpl in Hrs.
    destruct (Hrs Hs1 HT) as [Hok HR].
    unfold RestoreInternal, Contains. simpl.
    rewrite bool_decide_eq_false_2
      by (rewrite Hkey, Hfresh; by intros [? ?]). simpl.
    destruct (Restore ctx _ u0) as [s2 u2]. simpl in *.
    exists (mkIterator (Some u2)). unfold return_if_error. rewrite Hok.
    split; [done|].
    assert (Hrel : handles_related R (mkIterator (Some u2)) (mkIterator (Some u))).
    { unfold handles_related. simpl. by constructor. }
    split; [done|]. intros d ctxs. by apply (run_related_results R R_GetNext).
  - simplify_eq. split; [done|]. split; [done|].
    unfold RestoreInternal, Contains.
    rewrite bool_decide_eq_true_2 by (rewrite lookup_insert_eq; eauto). simpl.
    exists (mkIterator None). split; [done|].
    split; [unfold handles_related; simpl; constructor|done].
Qed.
End Checkpointing.

(** The slice iterator keeps what is expected of an upstream iterator. *)
Lemma slice_Save_other_keys (u : SliceIterator) (w : Checkpoint) :
  (Save u w).2 !! batch_full_name kInputImplEmpty
  = w !! batch_full_name kInputImplEmpty.
Proof. simpl. by rewrite lookup_insert_ne. Qed.

Lemma slice_Restore_Save ctx (u u0 : SliceIterator) (w : Checkpoint) :
  ok (Save u w).1 = true → same_items u0 u →
  ok (Restore ctx (Save u w).2 u0).1 = true
  ∧ same_remaining (Restore ctx (Save u w).2 u0).2 u.
Proof.
  unfold same_items, same_remaining. intros _ Hit. simpl.
  rewrite lookup_insert_eq. simpl. rewrite Nat2Z.id, Hit. done.
Qed.

(** C7 on a batch iterator that has handed out three of seven scalars,
    saved into an empty writer and restored in a fresh iterator over the same
    scalars. *)
Lemma save_restore_roundtrip_witness :
  ∃ it',
    RestoreInternal batch_full_name plentiful
      (<[kSlicePosition := ScalarInt64 3]> ∅)
      (mkIterator (Some (mkSlice seven 0)))
    = Some (Status_OK, it')
    ∧ handles_related same_remaining it' (mkIterator (Some (mkSlice seven 3)))
    ∧ ∀ d ctxs,
        fst <$> run d ctxs it'
        = fst <$> run d ctxs (mkIterator (Some (mkSlice seven 3))).
Proof.
  refine (proj2 (proj2 (save_restore_roundtrip batch_full_name
            same_remaining same_items same_remaining_GetNext
            slice_Save_other_keys slice_Restore_Save plentiful
            (mkIterator (Some (mkSlice seven 3)))
            (mkIterator (Some (mkSlice seven 0)))
            ∅ (<[kSlicePosition := ScalarInt64 3]> ∅) Status_OK _ _ _ _))).
  - apply lookup_empty.
  - reflexivity.
  - reflexivity.
  - intros u [= <-]. exists (mkSlice seven 0). split; reflexivity.
Defined.

(** ** Copy tasks commute *)

(** Writes to slices that do not overlap can be done in either order. *)
Lemma list_inserts_commute {A} (l k1 k2 : list A) i1 i2 :
  i1 + length k1 ≤ i2 ∨ i2 + length k2 ≤ i1 →
  list_inserts i1 k1 (list_inserts i2 k2 l)
  = list_inserts i2 k2 (list_inserts i1 k1 l).
Proof.
  intros Hdisj. apply list_eq. intros j.
  destruct (decide (j < length l)) as [Hj|Hj].
  - destruct (decide (i1 ≤ j < i1 + length k1)) as [H1|H1].
    + rewrite list_lookup_inserts by (rewrite ?length_inserts; lia).
      destruct (decide (j < i2)).
      * rewrite (list_lookup_inserts_lt _ i2) by done.
        by rewrite list_lookup_inserts by lia.
      * rewrite (list_lookup_inserts_ge _ i2) by lia.
        by rewrite list_lookup_inserts by lia.
    + assert (list_inserts i1 k1 (list_inserts i2 k2 l) !! j
              = list_inserts i2 k2 l !! j) as ->.
      { destruct (decide (j < i1)).
        - by apply list_lookup_inserts_lt.
        - apply list_lookup_inserts_ge. lia. }
      destruct (decide (i2 ≤ j < i2 + length k2)) as [H2|H2].
      * rewrite !list_lookup_inserts by (rewrite ?length_inserts; lia). done.
      * assert (∀ l', list_inserts i2 k2 l' !! j = l' !! j) as Hskip.
        { intros l'. destruct (decide (j < i2)).
          - by apply list_lookup_inserts_lt.
          - apply list_lookup_inserts_ge. lia. }
        rewrite !Hskip. destruct (decide (j < i1)).
        -- by rewrite list_lookup_inserts_lt.
        -- rewrite list_lookup_inserts_ge by lia. done.
  - rewrite !lookup_ge_None_2 by (rewrite !length_inserts; lia). done.
Qed.

Lemma ok_Update s1 s2 : ok (Update s1 s2) = ok s1 && ok s2.
Proof. unfold Update. by destruct (ok s1) eqn:E. Qed.

(** A copy leaves the dtype and the shape of the output tensor alone, and
    its status does not depend on what other copies wrote. *)
Lemma CopyElementToSlice_commute e1 e2 p i j :
  i ≠ j →
  let a := CopyElementToSlice e1 p i in
  let b := CopyElementToSlice e2 p j in
  (CopyElementToSlice e2 a.2 j).2 = (CopyElementToSlice e1 b.2 i).2
  ∧ ok (CopyElementToSlice e2 a.2 j).1 = ok b.1
  ∧ ok (CopyElementToSlice e1 b.2 i).1 = ok a.1.
Proof.
  intros Hij. unfold CopyElementToSlice.
  destruct (buf e1) as [src1|] eqn:Hb1, (buf e2) as [src2|] eqn:Hb2,
    (buf p) as [dst|] eqn:Hp; simpl; rewrite ?Hp; try done.
  destruct (bool_decide (dtype e1 = dtype p)
            && bool_decide (length src1 = slice_size p)) eqn:H1,
    (bool_decide (dtype e2 = dtype p)
     && bool_decide (length src2 = slice_size p)) eqn:H2;
    simpl; unfold slice_size in *; simpl; rewrite ?Hp, ?H1, ?H2; simpl;
    try done.
  apply andb_true_iff in H1 as [_ H1]. apply bool_decide_eq_true in H1.
  apply andb_true_iff in H2 as [_ H2]. apply bool_decide_eq_true in H2.
  split; [|done]. do 2 f_equal.
  apply list_inserts_commute. rewrite H1, H2.
  destruct (decide (i < j)); [right|left]; nia.
Qed.

Lemma run_task_commute c be st i j :
  i ≠ j →
  alike (run_task c be (run_task c be st i) j)
        (run_task c be (run_task c be st j) i).
Proof.
  intros Hij. destruct st as [s p]. unfold run_task, copy_element_fn. simpl.
  destruct (CopyElementToSlice_commute
              (element_at be i c) (element_at be j c) p i j Hij)
    as (Hcomp & Hokj & Hoki).
  destruct (CopyElementToSlice (element_at be i c) p i) as [si pi] eqn:Hi.
  destruct (CopyElementToSlice (element_at be j c) p j) as [sj pj] eqn:Hj.
  simpl in *.
  destruct (CopyElementToSlice (element_at be j c) pi j) as [sj' pij] eqn:Hij'.
  destruct (CopyElementToSlice (element_at be i c) pj i) as [si' pji] eqn:Hji'.
  simpl in *. split; simpl; [|done].
  rewrite !ok_Update, Hokj, Hoki.
  destruct (ok s), (ok si), (ok sj); done.
Qed.

Lemma run_task_alike c be a b i :
  alike a b → alike (run_task c be a i) (run_task c be b i).
Proof.
  destruct a as [s1 p1], b as [s2 p2]. unfold alike, run_task. simpl.
  intros [Hs ->]. destruct (copy_element_fn c be p2 i) as [s p]. simpl.
  by rewrite !ok_Update, Hs.
Qed.

Lemma alike_trans a b c : alike a b → alike b c → alike a c.
Proof. unfold alike. intros [? ?] [? ?]. split; congruence. Qed.

Lemma foldl_run_task_alike c be l :
  ∀ a b, alike a b →
    alike (foldl (run_task c be) a l) (foldl (run_task c be) b l).
Proof.
  induction l as [|i l IH]; intros a b Hab; [done|].
  simpl. by apply IH, run_task_alike.
Qed.

(** The tasks of one slot, run in any order, leave the same output tensor
    and agree on whether a copy failed. *)
Lemma foldl_run_task_permutation c be l l' :
  l ≡ₚ l' → NoDup l →
  ∀ a b, alike a b →
    alike (foldl (run_task c be) a l) (foldl (run_task c be) b l').
Proof.
  induction 1 as [|x l l' Hperm IH|x y l|l l' l'' H1 IH1 H2 IH2];
    intros Hnd a b Hab.
  - done.
  - simpl. apply NoDup_cons in Hnd as [_ Hnd].
    by apply IH, run_task_alike.
  - simpl. apply NoDup_cons in Hnd as [Hy _].
    assert (y ≠ x) by (intros ->; apply Hy; by left).
    eapply alike_trans; [|by apply foldl_run_task_alike, run_task_commute].
    by apply foldl_run_task_alike, run_task_alike, run_task_alike.
  - eapply alike_trans; [by apply IH1|].
    apply IH2; [by rewrite <- H1|]. by split.
Qed.

(** Every task handed to the runner finishes exactly once. *)
Lemma completion_order_permutation pick fuel :
  ∀ j pending,
    fuel = length pending →
    completion_order pick j fuel pending ≡ₚ pending.
Proof.
  induction fuel as [|fuel IH]; intros j pending Hlen.
  - by destruct pending.
  - simpl.
    assert (Hp : pick j `mod` length pending < length pending).
    { apply Nat.mod_upper_bound. lia. }
    destruct (lookup_lt_is_Some_2 _ _ Hp) as [t Ht]. rewrite Ht.
    etrans; [|symmetry; apply (delete_Permutation pending _ t Ht)].
    constructor. apply IH. rewrite length_delete by eauto. lia.
Qed.

(** ** Parallel and sequential copies *)

(** The element loop in the two modes: it is left at the same index by a
    shape that differs, or runs to its end; then what the sequential loop has
    copied is what the tasks handed out by the parallel loop copy when run in
    the order they were handed out. *)
Lemma copy_loop_par_seq c be fs todo :
  ∀ i0 sts stp,
    (cs_status sts, cs_component sts)
    = foldl (run_task c be) (cs_status stp, cs_component stp) (cs_scheduled stp) →
    match copy_loop false c be fs todo i0 sts,
          copy_loop true c be fs todo i0 stp with
    | inl (x, _), inl (y, _) => x = y
    | inr sts', inr stp' =>
        (cs_status sts', cs_component sts')
        = foldl (run_task c be) (cs_status stp', cs_component stp')
            (cs_scheduled stp')
        ∧ cs_scheduled stp' = cs_scheduled stp ++ seq i0 todo
        ∧ cs_scheduled sts' = cs_scheduled sts
        ∧ cs_status stp' = cs_status stp
        ∧ cs_component stp' = cs_component stp
    | _, _ => False
    end.
Proof.
  induction todo as [|todo IH]; intros i0 sts stp Hinv; simpl.
  - rewrite app_nil_r. done.
  - case_bool_decide; [done|].
    destruct (run_task c be (cs_status sts, cs_component sts) i0)
      as [status comp] eqn:Hrun.
    specialize (IH (S i0) (mkCopyState status comp (cs_scheduled sts))
                  (mkCopyState (cs_status stp) (cs_component stp)
                     (cs_scheduled stp ++ [i0]))).
    simpl in IH. rewrite foldl_app in IH. simpl in IH.
    rewrite <- Hinv, Hrun in IH. specialize (IH eq_refl).
    destruct (copy_loop false _ _ _ _ _ _) as [[x ?]|sts'],
      (copy_loop true _ _ _ _ _ _) as [[y ?]|stp']; try done.
    destruct IH as (? & Hs & ? & ? & ?). rewrite <- app_assoc in Hs. done.
Qed.

(** What the assembler returns from inside its loops is an error. *)
Lemma assemble_component_return ctx par be c out s :
  asm_return (assemble_component ctx par be c out) = Some s → ok s = false.
Proof.
  unfold assemble_component. destruct (negb _); simpl.
  - by intros [= <-].
  - destruct (copy_loop _ _ _ _ _ _ _) as [[[i sh] st]|st]; simpl.
    + by intros [= <-].
    + destruct (Wait _ _ _ _) as [status comp]. simpl.
      destruct (ok status) eqn:E; [done|]. by intros [= <-].
Qed.

Lemma assemble_loop_return ctx par be todo :
  ∀ c out s,
    asm_return (assemble_loop ctx par be todo c out) = Some s → ok s = false.
Proof.
  induction todo as [|todo IH]; intros c out s; simpl; [done|].
  destruct (asm_return (assemble_component ctx par be c out)) eqn:Hr.
  - rewrite Hr. intros [= <-]. by eapply assemble_component_return.
  - apply IH.
Qed.

Lemma assemble_component_par_seq ctx be c out :
  asm_alike (assemble_component ctx true be c out)
            (assemble_component ctx false be c out).
Proof.
  unfold assemble_component.
  destruct (negb _); [right; simpl; eauto|].
  set (st0 := mkCopyState Status_OK _ []).
  pose proof (copy_loop_par_seq c be (shape (element_at be 0 c))
                (length be) 0 st0 st0 eq_refl) as Hloop.
  destruct (copy_loop false _ _ _ _ _ _) as [[[i1 sh1] sts']|sts'],
    (copy_loop true _ _ _ _ _ _) as [[[i2 sh2] stp']|stp']; try done.
  - right. simpl. eauto.
  - destruct Hloop as (Hinv & Hsched & Hnone & Hst & Hcomp).
    simpl in Hsched, Hnone.
    assert (Hseq : Wait ctx c be sts' = (cs_status sts', cs_component sts')).
    { unfold Wait. rewrite Hnone. done. }
    assert (Hpar : alike (Wait ctx c be stp') (Wait ctx c be sts')).
    { rewrite Hseq, Hinv. unfold Wait.
      apply foldl_run_task_permutation; [| |by split].
      - apply completion_order_permutation. done.
      - rewrite (completion_order_permutation _ _ _ _ eq_refl), Hsched.
        apply NoDup_seq. }
    destruct (Wait ctx c be stp') as [s1 p1], (Wait ctx c be sts') as [s2 p2].
    destruct Hpar as [Hok Hp]. simpl in Hok, Hp. subst p1. rewrite Hok.
    destruct (ok s2); [left|right]; simpl; eauto.
Qed.

Lemma assemble_loop_par_seq ctx be todo :
  ∀ c out,
    asm_alike (assemble_loop ctx true be todo c out)
              (assemble_loop ctx false be todo c out).
Proof.
  induction todo as [|todo IH]; intros c out; simpl.
  - by left.
  - destruct (assemble_component_par_seq ctx be c out)
      as [[Hnone Heq]|[[s1 H1] [s2 H2]]].
    + rewrite <- Heq, Hnone. apply IH.
    + rewrite H1, H2. right. rewrite H1, H2. eauto.
Qed.




(** ** Assembling tuples that conform *)

(** A sequential element loop that meets no differing shape has run every
    copy in turn. *)
Lemma copy_loop_seq_done c be fs todo :
  ∀ i0 st,
    (∀ j, i0 ≤ j < i0 + todo → shape (element_at be j c) = fs) →
    copy_loop false c be fs todo i0 st
    = inr (mkCopyState
             (foldl (run_task c be) (cs_status st, cs_component st)
                (seq i0 todo)).1
             (foldl (run_task c be) (cs_status st, cs_component st)
                (seq i0 todo)).2
             (cs_scheduled st)).
Proof.
  induction todo as [|todo IH]; intros i0 st Hsame; simpl.
  - by destruct st.
  - rewrite bool_decide_eq_false_2 by (intros Hne; apply Hne, Hsame; lia).
    destruct (run_task c be (cs_status st, cs_component st) i0)
      as [status comp] eqn:Hrun.
    rewrite IH by (intros; apply Hsame; lia). done.
Qed.

Lemma length_concat_uniform {A} (ls : list (list A)) m :
  (∀ x, x ∈ ls → length x = m) → length (concat ls) = length ls * m.
Proof.
  induction ls as [|x ls IH]; intros Hall; [done|].
  simpl. rewrite length_app, Hall by (by left).
  rewrite IH; [done|]. intros. apply Hall. by right.
Qed.

Section Conforming.
Variable sig : list (DataType * TensorShape).
Variable group : list (list Tensor).
Hypothesis group_conforms : Forall (conforms sig) group.

Lemma conforms_lookup k e c ds :
  group !! k = Some e → sig !! c = Some ds →
  ∃ b, dtype (element_at group k c) = ds.1
       ∧ shape (element_at group k c) = ds.2
       ∧ buf (element_at group k c) = Some b
       ∧ buf (e !!! c) = Some b
       ∧ length b = NumElements ds.2.
Proof.
  intros Hk Hc.
  pose proof (proj1 (Forall_lookup _ _) group_conforms k e Hk) as Hconf.
  destruct (Forall2_lookup_r _ _ _ _ _ Hconf Hc) as (t & Ht & Hdt & Hsh & b & Hb & Hlen).
  unfold element_at.
  rewrite (list_lookup_total_correct _ _ _ Hk),
    (list_lookup_total_correct _ _ _ Ht).
  eauto 10.
Qed.

Lemma conforms_arity k e : group !! k = Some e → length e = length sig.
Proof.
  intros Hk.
  pose proof (proj1 (Forall_lookup _ _) group_conforms k e Hk) as Hconf.
  by eapply Forall2_length.
Qed.

(** After the copies of the first [k] tuples the output tensor holds their
    values, followed by the zeros it was allocated with. *)
Lemma foldl_run_task_conforming c ds k :
  sig !! c = Some ds → k ≤ length group →
  foldl (run_task c group)
    (Status_OK,
     mkTensor ds.1 (length group :: ds.2)
       (Some (replicate (length group * NumElements ds.2) 0%Z)))
    (seq 0 k)
  = (Status_OK,
     mkTensor ds.1 (length group :: ds.2)
       (Some (concat (map (λ e, default [] (buf (e !!! c))) (take k group))
              ++ replicate ((length group - k) * NumElements ds.2) 0%Z))).
Proof.
  intros Hc. induction k as [|k IH]; intros Hk.
  - simpl. by rewrite Nat.sub_0_r.
  - rewrite seq_S, foldl_app, IH by lia. simpl.
    destruct (lookup_lt_is_Some_2 group k) as [e He]; [lia|].
    destruct (conforms_lookup k e c ds He Hc) as (b & Hdt & Hsh & Hb & Hbe & Hlen).
    unfold run_task, copy_element_fn, CopyElementToSlice. simpl.
    rewrite Hb, Hdt. unfold slice_size. simpl.
    rewrite !bool_decide_eq_true_2 by done. simpl.
    rewrite (take_S_r _ _ _ He), map_app, concat_app. simpl.
    rewrite app_nil_r, Hbe. simpl.
    do 3 f_equal.
    assert (Hpre : length (concat (map (λ e0, default [] (buf (e0 !!! c)))
                                   (take k group)))
                   = k * NumElements ds.2).
    { rewrite (length_concat_uniform _ (NumElements ds.2)).
      - rewrite length_map, length_take. f_equal. lia.
      - intros x Hx. apply list_elem_of_fmap in Hx as (e' & -> & He').
        apply list_elem_of_lookup in He' as [j Hj].
        apply lookup_take_Some in Hj as [Hj _].
        destruct (conforms_lookup j e' c ds Hj Hc) as (b' & _ & _ & _ & -> & ?).
        done. }
    replace (length group - k) with (S (length group - S k)) by lia.
    rewrite Nat.mul_succ_l, (Nat.add_comm _ (NumElements ds.2)), replicate_add.
    replace (k * NumElements ds.2)
      with (length (concat (map (λ e0, default [] (buf (e0 !!! c)))
                              (take k group))) + 0) by lia.
    rewrite list_inserts_app_r, <- app_assoc. f_equal.
    apply list_inserts_0_r. by rewrite length_replicate.
Qed.
End Conforming.

Section ConformingBatch.
Variable sig : list (DataType * TensorShape).
Variable group : list (list Tensor).
Hypothesis group_conforms : Forall (conforms sig) group.
Hypothesis group_nonempty : group ≠ [].
Variable ctx : IteratorContext.
Hypothesis ctx_generous : generous ctx.

Lemma assemble_component_conforming c ds out :
  sig !! c = Some ds →
  assemble_component ctx false group c out
  = mkAssembly None (out ++ [stack_slot group c]) [].
Proof.
  intros Hc. destruct group as [|e0 rest] eqn:Hgroup; [done|].
  rewrite <- Hgroup in *.
  assert (H0 : group !! 0 = Some e0) by (by rewrite Hgroup).
  destruct (conforms_lookup sig group group_conforms 0 e0 c ds H0 Hc)
    as (b0 & Hdt0 & Hsh0 & _).
  unfold assemble_component, Tensor_alloc, stack_slot.
  rewrite ctx_generous, orb_true_r, Hdt0, Hsh0. simpl.
  rewrite copy_loop_seq_done; cycle 1.
  { intros j Hj.
    destruct (lookup_lt_is_Some_2 group j) as [e He]; [lia|].
    by destruct (conforms_lookup sig group group_conforms j e c ds He Hc)
      as (b & _ & -> & _). }
  unfold Wait. simpl.
  change (length group * foldr Nat.mul 1 ds.2)
    with (length group * NumElements ds.2).
  rewrite (foldl_run_task_conforming sig group group_conforms c ds
             (length group) Hc) by done.
  simpl. rewrite firstn_all, Nat.sub_diag. simpl. rewrite app_nil_r. done.
Qed.

Lemma assemble_loop_conforming todo :
  ∀ c0 out,
    c0 + todo ≤ length sig →
    assemble_loop ctx false group todo c0 out
    = mkAssembly None (out ++ map (stack_slot group) (seq c0 todo)) [].
Proof.
  induction todo as [|todo IH]; intros c0 out Hlen; simpl.
  - by rewrite app_nil_r.
  - destruct (lookup_lt_is_Some_2 sig c0) as [ds Hds]; [lia|].
    rewrite (assemble_component_conforming c0 ds out Hds). simpl.
    rewrite IH by lia. by rewrite <- app_assoc.
Qed.

(** Tuples that conform are assembled, in either mode, into the containers
    that stack their values. *)
Lemma assemble_conforming par out :
  assemble ctx par group out = mkAssembly None (out ++ stacked group) [].
Proof.
  assert (Hseq : assemble ctx false group out
                 = mkAssembly None (out ++ stacked group) []).
  { unfold assemble, stacked. apply assemble_loop_conforming.
    destruct group as [|e0 rest] eqn:Hgroup; [done|].
    rewrite <- Hgroup in *.
    assert (H0 : group !! 0 = Some e0) by (by rewrite Hgroup).
    rewrite (list_lookup_total_correct _ _ _ H0).
    rewrite (conforms_arity sig group group_conforms 0 e0 H0). done. }
  destruct par; [|done].
  unfold assemble in *.
  destruct (assemble_loop_par_seq ctx group (length (group !!! 0)) 0 out)
    as [[_ Heq]|[_ [s Hs]]].
  - by rewrite Heq.
  - rewrite Hseq in Hs. done.
Qed.
End ConformingBatch.

(** ** What the assembler appends *)

Lemma CopyElementToSlice_ok e p i :
  ok (CopyElementToSlice e p i).1 = true →
  ∃ src dst,
    buf e = Some src ∧ buf p = Some dst
    ∧ dtype e = dtype p ∧ length src = slice_size p
    ∧ CopyElementToSlice e p i
      = (Status_OK,
         mkTensor (dtype p) (shape p)
           (Some (list_inserts (i * slice_size p) src dst))).
Proof.
  unfold CopyElementToSlice.
  destruct (buf e) as [src|], (buf p) as [dst|]; simpl; try done.
  destruct (bool_decide (dtype e = dtype p)
            && bool_decide (length src = slice_size p)) eqn:Hc; [|done].
  intros _. apply andb_true_iff in Hc as [H1 H2].
  apply bool_decide_eq_true in H1, H2. eauto 10.
Qed.

(** An element loop that runs to its end has met the shape of the first
    element at every index. *)
Lemma copy_loop_inr_shapes par c be fs todo :
  ∀ i0 st st',
    copy_loop par c be fs todo i0 st = inr st' →
    ∀ j, i0 ≤ j < i0 + todo → shape (element_at be j c) = fs.
Proof.
  induction todo as [|todo IH]; intros i0 st st' Hloop j Hj; [lia|].
  simpl in Hloop. case_bool_decide as Hsh; [done|].
  destruct (decide (j = i0)) as [->|Hne]; [done|].
  destruct par.
  - eapply IH; [exact Hloop|lia].
  - destruct (run_task _ _ _ _). eapply IH; [exact Hloop|lia].
Qed.

(** As long as no copy has failed, the output tensor of a slot holds the
    values of the tuples copied so far, followed by the zeros it was
    allocated with, and these tuples had the dtype and the number of entries
    of a slice. *)
Lemma foldl_run_task_ok c be dt fs k :
  k ≤ length be →
  let p0 := mkTensor dt (length be :: fs)
              (Some (replicate (length be * NumElements fs) 0%Z)) in
  ok (foldl (run_task c be) (Status_OK, p0) (seq 0 k)).1 = true →
  foldl (run_task c be) (Status_OK, p0) (seq 0 k)
  = (Status_OK,
     mkTensor dt (length be :: fs)
       (Some (concat (map (λ e, default [] (buf (e !!! c))) (take k be))
              ++ replicate ((length be - k) * NumElements fs) 0%Z)))
  ∧ ∀ j, j < k →
      dtype (element_at be j c) = dt
      ∧ ∃ b, buf (element_at be j c) = Some b ∧ length b = NumElements fs.
Proof.
  intros Hk p0. induction k as [|k IH]; intros Hok.
  - simpl. rewrite Nat.sub_0_r. split; [done|]. intros; lia.
  - rewrite seq_S, foldl_app in Hok |- *. simpl in Hok |- *.
    unfold run_task at 1 in Hok. unfold run_task at 1.
    destruct (copy_element_fn c be
                (foldl (run_task c be) (Status_OK, p0) (seq 0 k)).2 k)
      as [s p'] eqn:Hcopy.
    simpl in Hok. rewrite ok_Update in Hok.
    apply andb_true_iff in Hok as [Hprev Hs].
    destruct (IH ltac:(lia) Hprev) as [Hfold Hbefore].
    rewrite Hfold in Hcopy |- *. simpl in Hcopy |- *.
    unfold copy_element_fn in Hcopy.
    destruct (CopyElementToSlice_ok (element_at be k c) _ k
                ltac:(by rewrite Hcopy))
      as (src & dst & Hsrc & Hdst & Hdt & Hlen & Heq).
    rewrite Heq in Hcopy. simplify_eq. simpl in *.
    unfold slice_size in *. simpl in *.
    change (foldr Nat.mul 1 fs) with (NumElements fs) in *.
    injection Hdst as <-.
    destruct (lookup_lt_is_Some_2 be k) as [e He]; [lia|].
    assert (Hek : element_at be k c = e !!! c).
    { unfold element_at. by rewrite (list_lookup_total_correct _ _ _ He). }
    assert (Hpre : length (concat (map (λ e0, default [] (buf (e0 !!! c)))
                                   (take k be)))
                   = k * NumElements fs).
    { rewrite (length_concat_uniform _ (NumElements fs)).
      - rewrite length_map, length_take. f_equal. lia.
      - intros x Hx. apply list_elem_of_fmap in Hx as (e' & -> & He').
        apply list_elem_of_lookup in He' as [j Hj].
        apply lookup_take_Some in Hj as [Hj Hjk].
        destruct (Hbefore j Hjk) as (_ & b' & Hb' & Hlb).
        unfold element_at in Hb'.
        rewrite (list_lookup_total_correct _ _ _ Hj) in Hb'.
        by rewrite Hb'. }
    split.
    + unfold Update. simpl. do 3 f_equal.
      rewrite (take_S_r _ _ _ He), map_app, concat_app. simpl.
      rewrite app_nil_r, <- Hek, Hsrc. simpl.
      replace (length be - k) with (S (length be - S k)) by lia.
      rewrite Nat.mul_succ_l, (Nat.add_comm _ (NumElements fs)), replicate_add.
      replace (k * NumElements fs)
        with (length (concat (map (λ e0, default [] (buf (e0 !!! c)))
                                (take k be))) + 0) by lia.
      rewrite list_inserts_app_r, <- app_assoc. f_equal.
      apply list_inserts_0_r. by rewrite length_replicate.
    + intros j Hj. destruct (decide (j = k)) as [->|Hne].
      * split; [done|]. eauto.
      * apply Hbefore. lia.
Qed.

Lemma assemble_component_sound ctx be c out :
  asm_return (assemble_component ctx false be c out) = None →
  asm_out (assemble_component ctx false be c out) = out ++ [stack_slot be c]
  ∧ ∀ j, j < length be →
      shape (element_at be j c) = shape (element_at be 0 c)
      ∧ dtype (element_at be j c) = dtype (element_at be 0 c).
Proof.
  unfold assemble_component, Tensor_alloc.
  destruct (_ || alloc_ok ctx c _ _); simpl; [|done].
  destruct (copy_loop false c be _ (length be) 0 _) as [[[i sh] st]|st] eqn:Hloop;
    simpl; [done|].
  pose proof (copy_loop_inr_shapes _ _ _ _ _ _ _ _ Hloop) as Hshapes.
  rewrite copy_loop_seq_done in Hloop by done. simplify_eq.
  unfold Wait. simpl.
  change (length be * foldr Nat.mul 1 (shape (element_at be 0 c)))
    with (length be * NumElements (shape (element_at be 0 c))).
  destruct (foldl (run_task c be) _ (seq 0 (length be))) as [status comp] eqn:Hfold.
  simpl. destruct (ok status) eqn:Hok; [|done]. intros _.
  destruct (foldl_run_task_ok c be (dtype (element_at be 0 c))
              (shape (element_at be 0 c)) (length be) ltac:(done)) as [Heq Hall].
  { cbv zeta. by rewrite Hfold. }
  cbv zeta in Heq. rewrite Hfold in Heq. simplify_eq.
  rewrite firstn_all, Nat.sub_diag. simpl. rewrite app_nil_r.
  split; [done|]. intros j Hj. split.
  - apply Hshapes. lia.
  - by destruct (Hall j Hj).
Qed.

Lemma assemble_loop_sound ctx be todo :
  ∀ c0 out,
    asm_return (assemble_loop ctx false be todo c0 out) = None →
    assemble_loop ctx false be todo c0 out
    = mkAssembly None (out ++ map (stack_slot be) (seq c0 todo)) []
    ∧ ∀ c j, c0 ≤ c < c0 + todo → j < length be →
        shape (element_at be j c) = shape (element_at be 0 c)
        ∧ dtype (element_at be j c) = dtype (element_at be 0 c).
Proof.
  induction todo as [|todo IH]; intros c0 out; simpl.
  - intros _. rewrite app_nil_r. split; [done|]. intros; lia.
  - destruct (asm_return (assemble_component ctx false be c0 out)) eqn:Hr.
    + by rewrite Hr.
    + destruct (assemble_component_sound ctx be c0 out Hr) as [Hout Hc0].
      rewrite Hout. intros Hnone.
      destruct (IH (S c0) _ Hnone) as [Heq Hrest].
      rewrite Heq, <- app_assoc. split; [done|].
      intros c j Hc Hj. destruct (decide (c = c0)) as [->|Hne].
      * by apply Hc0.
      * apply Hrest; [lia|done].
Qed.

(** When the assembler runs to its end, in either mode, [*out_tensors] has
    gained the containers that stack the values of the tuples, and the tuples
    agree on the shape and dtype of every slot. *)
Lemma assemble_sound ctx par be out :
  asm_return (assemble ctx par be out) = None →
  assemble ctx par be out = mkAssembly None (out ++ stacked be) []
  ∧ ∀ c j, c < length (be !!! 0) → j < length be →
      shape (element_at be j c) = shape (element_at be 0 c)
      ∧ dtype (element_at be j c) = dtype (element_at be 0 c).
Proof.
  unfold assemble, stacked. intros Hnone.
  assert (Hseq : asm_return (assemble_loop ctx false be (length (be !!! 0)) 0 out)
                 = None
                 ∧ assemble_loop ctx par be (length (be !!! 0)) 0 out
                   = assemble_loop ctx false be (length (be !!! 0)) 0 out).
  { destruct par; [|done].
    destruct (assemble_loop_par_seq ctx be (length (be !!! 0)) 0 out)
      as [[_ Heq]|[[s Hs] _]].
    - by rewrite <- Heq.
    - by rewrite Hnone in Hs. }
  destruct Hseq as [Hseq ->].
  destruct (assemble_loop_sound ctx be _ 0 out Hseq) as [Heq Hall].
  split; [done|]. intros c j Hc Hj. apply Hall; [lia|done].
Qed.

(** ** What a failed call leaves behind *)










Section Errors.
Context {U : Type} `{!IteratorBase U}.

End Errors.


(** In parallel mode what the failed call leaves depends on the runner: with
    one task finished before the return, the container holds the slice of
    the first tuple, and both tasks are unjoined. *)
Example finished_tasks_show :
  let call ctx :=
    GetNextInternal (batch_of 3 false true) ctx
      (mkIterator (Some (mkSlice ragged 0))) [] in
  (gn_out_tensors ∘ fst <$> call hasty = Some ragged_started
   ∧ gn_unjoined ∘ fst <$> call hasty = Some [(0, 0); (0, 1)])
  ∧ gn_out_tensors ∘ fst <$> call plentiful
    = Some [mkTensor DT_FLOAT [3; 2; 3] (Some (replicate 18 0%Z))].
Proof. vm_compute. repeat split. Qed.


(** ** The groups the spec asks for *)

Lemma div_step n b : 0 < b → b ≤ n → n / b = S ((n - b) / b).
Proof.
  intros Hb Hn. replace n with (1 * b + (n - b)) at 1 by lia.
  rewrite Nat.div_add_l by lia. lia.
Qed.

Lemma full_batches_step {A} b (l : list A) :
  0 < b → b ≤ length l →
  full_batches b l = take b l :: full_batches b (drop b l).
Proof.
  intros Hb Hl. unfold full_batches.
  rewrite (div_step (length l) b), length_drop by done.
  rewrite <- cons_seq. simpl. f_equal.
  rewrite <- fmap_S_seq.
  change (map ?f (S <$> ?l)) with (f <$> (S <$> l)).
  rewrite <- list_fmap_compose. apply list_fmap_ext. intros _ k _. simpl.
  by rewrite drop_drop.
Qed.

Lemma remainder_step {A} b (l : list A) :
  0 < b → b ≤ length l → remainder b l = remainder b (drop b l).
Proof.
  intros Hb Hl. unfold remainder.
  rewrite (div_step (length l) b), length_drop by done.
  rewrite drop_drop. f_equal; lia.
Qed.

Lemma batches_step {A} b dr (l : list A) :
  0 < b → b ≤ length l →
  batches b dr l = take b l :: batches b dr (drop b l).
Proof.
  intros Hb Hl. unfold batches.
  by rewrite full_batches_step, (remainder_step b l).
Qed.

Lemma batches_short {A} b dr (l : list A) :
  length l < b →
  batches b dr l
  = if negb dr && negb (bool_decide (length l = 0)) then [l] else [].
Proof.
  intros Hl. unfold batches, full_batches, remainder.
  rewrite Nat.div_small by done. done.
Qed.

(** The groups are made of the tuples of the sequence, in their order: [n / b]
    groups of [b] tuples and [n mod b] tuples left. *)
Lemma full_batches_spec {A} b (l : list A) :
  0 < b →
  length (full_batches b l) = length l / b
  ∧ Forall (λ g, length g = b) (full_batches b l)
  ∧ length (remainder b l) = length l `mod` b
  ∧ concat (full_batches b l) ++ remainder b l = l.
Proof.
  intros Hb. split; [|split; [|split]].
  - unfold full_batches. by rewrite length_map, length_seq.
  - unfold full_batches. apply Forall_forall. intros g Hg.
    apply list_elem_of_fmap in Hg as (k & -> & Hk).
    apply elem_of_seq in Hk.
    rewrite length_take, length_drop.
    pose proof (Nat.Div0.mul_div_le (length l) b). nia.
  - unfold remainder. rewrite length_drop.
    rewrite (Nat.div_mod_eq (length l) b) at 1. lia.
  - remember (length l) as n eqn:Hn. revert l Hn.
    induction (lt_wf n) as [n _ IH]. intros l ->.
    destruct (decide (length l < b)) as [Hlt|Hge].
    + unfold full_batches, remainder. by rewrite Nat.div_small.
    + rewrite full_batches_step, (remainder_step b l) by lia. simpl.
      rewrite <- app_assoc, (IH (length (drop b l))); [|rewrite length_drop; lia|done].
      apply take_drop.
Qed.

(** ** Batching a finite sequence *)

Lemma map_const_replicate {A B} (e : B) (l : list A) :
  map (λ _, e) l = replicate (length l) e.
Proof. induction l as [|x l IH]; simpl; by rewrite ?IH. Qed.

Lemma batches_conform {A} (P : A → Prop) b dr (l : list A) :
  0 < b → Forall P l →
  Forall (λ g, g ≠ [] ∧ Forall P g) (batches b dr l).
Proof.
  intros Hb Hl. destruct (full_batches_spec b l Hb) as (_ & Hfull & _ & _).
  unfold batches. apply Forall_app. split.
  - apply Forall_forall. intros g Hg.
    pose proof (proj1 (Forall_forall _ _) Hfull g Hg) as Hlen. split.
    + intros ->. simpl in Hlen. lia.
    + unfold full_batches in Hg.
      apply list_elem_of_In, in_map_iff in Hg as (k & <- & _).
      by apply Forall_take, Forall_drop.
  - destruct (negb dr && _) eqn:Hc; [|constructor].
    constructor; [|constructor]. split.
    + apply andb_true_iff in Hc as [_ Hc]. apply negb_true_iff in Hc.
      apply bool_decide_eq_false in Hc. by intros Hnil; rewrite Hnil in Hc.
    + unfold remainder. by apply Forall_drop.
Qed.

(** The groups of a sequence whose tuples all conform to one signature are
    uniform. *)
Lemma conforming_batches_uniform sig b dr (its : list (list Tensor)) :
  0 < b → Forall (conforms sig) its → Forall uniform (batches b dr its).
Proof.
  intros Hb Hconf.
  eapply Forall_impl; [by apply (batches_conform (conforms sig))|].
  intros g [_ Hg]. by exists sig.
Qed.

Section BatchingSequence.
Variable its : list (list Tensor).
Variable d : Dataset.
Hypothesis batch_size_positive : (0 < batch_size_ d)%Z.
Hypothesis batch_size_counts : counts d.

(** From any position of the sequence, when the groups that the tuples still
    to come are cut into are uniform, the calls return the batches of these
    groups, then end-of-sequence; the iterator is exhausted once a call has
    gone past the last group. *)
Lemma run_slice_uniform ctxs :
  ∀ p,
    Forall generous ctxs → Forall (reserves d) ctxs →
    let b := Z.to_nat (batch_size_ d) in
    let B := batches b (drop_remainder_ d) (drop p its) in
    Forall uniform B →
    fst <$> run d ctxs (mkIterator (Some (mkSlice its p)))
    = Some (map emitted (take (length ctxs) B)
            ++ replicate (length ctxs - length B) end_result)
    ∧ (length B < length ctxs →
       snd <$> run d ctxs (mkIterator (Some (mkSlice its p)))
       = Some (mkIterator None)).
Proof.
  induction ctxs as [|ctx ctxs IH]; intros p Hgen Hres b B Huni.
  - simpl. split; [done|lia].
  - apply Forall_cons in Hgen as [Hctx Hgen].
    apply Forall_cons in Hres as [Hroom Hres].
    assert (Hb : 0 < b) by (unfold b; lia).
    simpl run.
    rewrite (GetNextInternal_reserved _ _ _ _ Hroom batch_size_counts).
    unfold next_batch. rewrite slice_pull_loop. fold b.
    destruct (decide (b ≤ length (drop p its))) as [Hle|Hgt].
    + (* a full group is left *)
      assert (Hlen : length (take b (drop p its)) = b)
        by (rewrite length_take; lia).
      assert (Hne : take b (drop p its) ≠ [])
        by (intros Hnil; rewrite Hnil in Hlen; simpl in Hlen; lia).
      unfold B in Huni. rewrite (batches_step b _ (drop p its)) in Huni by done.
      apply Forall_cons in Huni as [[sig Hgroup] Huni].
      simpl. rewrite bool_decide_eq_false_2 by done.
      rewrite Hlen.
      rewrite (bool_decide_eq_false_2 (Z.of_nat b < batch_size_ d)%Z)
        by (unfold b; lia).
      rewrite andb_false_r.
      rewrite (assemble_conforming sig (take b (drop p its)) Hgroup Hne ctx Hctx).
      simpl.
      rewrite drop_drop in Huni.
      destruct (IH (p + b) Hgen Hres Huni) as [Hrs Hend]. fold b in Hrs, Hend.
      rewrite <- drop_drop in Hrs, Hend.
      destruct (run d ctxs _) as [[rs it'']|]; simpl in *; [|done].
      unfold B. rewrite (batches_step b _ (drop p its)) by done.
      simpl. injection Hrs as ->. split; [done|]. intros Hlt. apply Hend. lia.
    + (* fewer tuples than a batch are left: the upstream ends *)
      unfold B in *. rewrite batches_short in Huni |- * by lia.
      destruct (drop p its) as [|e rest] eqn:Hdrop.
      * simpl. rewrite run_exhausted. simpl.
        rewrite andb_false_r, map_const_replicate. simpl. done.
      * rewrite ok_Status_OK. cbn [negb app].
        rewrite (bool_decide_eq_false_2 (e :: rest = [])) by done.
        rewrite (bool_decide_eq_false_2 (length (e :: rest) = 0)) in Huni |- *
          by done.
        rewrite (bool_decide_eq_true_2
                   (Z.of_nat (length (e :: rest)) < batch_size_ d)%Z)
          by (unfold b in Hgt; lia).
        rewrite !andb_true_r in Huni |- *.
        destruct (drop_remainder_ d); cbn [negb] in Huni |- *.
        -- rewrite run_exhausted. simpl.
           rewrite map_const_replicate, ?Nat.sub_0_r. done.
        -- apply Forall_cons in Huni as [[sig Hgroup] _].
           rewrite (assemble_conforming sig (e :: rest) Hgroup
                      ltac:(done) ctx Hctx).
           cbn [asm_return asm_out app]. rewrite run_exhausted. simpl.
           rewrite take_nil, map_const_replicate. simpl.
           rewrite Nat.sub_0_r. by split.
Qed.

(** From any position of a sequence whose tuples conform to one
    signature. *)
Lemma run_slice_conforming sig ctxs p :
  Forall (conforms sig) its →
  Forall generous ctxs → Forall (reserves d) ctxs →
  let b := Z.to_nat (batch_size_ d) in
  let B := batches b (drop_remainder_ d) (drop p its) in
  fst <$> run d ctxs (mkIterator (Some (mkSlice its p)))
  = Some (map emitted (take (length ctxs) B)
          ++ replicate (length ctxs - length B) end_result).
Proof.
  intros Hconf Hgen Hres b B.
  apply run_slice_uniform; [done|done|].
  apply (conforming_batches_uniform sig); [lia|by apply Forall_drop].
Qed.

(** C2, amended. For a sequence of [n] tuples and a batch size [b > 0] that
    the counter of the pull loop can reach, when the groups to emit (the
    [n / b] groups of [b] consecutive tuples and, when [drop_remainder] is
    false, the [n mod b] tuples left) are each uniform, and the contexts of
    the calls have an allocator that does not fail and room for the
    accumulation list: the calls all return and give,
    in this order, the batches that stack the [n / b] groups, then the batch
    of the [n mod b] tuples left when [drop_remainder] is false and
    [n mod b ≠ 0], then end-of-sequence for ever; once a call has gone past
    these batches the iterator is exhausted, so that with [drop_remainder]
    the tuples left were pulled and not emitted. *)
Theorem batches_of_sequence ctxs :
  Forall generous ctxs → Forall (reserves d) ctxs →
  let b := Z.to_nat (batch_size_ d) in
  let n := length its in
  let B := batches b (drop_remainder_ d) its in
  Forall uniform B →
  fst <$> run d ctxs (mkIterator (Some (mkSlice its 0)))
  = Some (map emitted (take (length ctxs) B)
          ++ replicate (length ctxs - length B) end_result)
  ∧ (length B < length ctxs →
     snd <$> run d ctxs (mkIterator (Some (mkSlice its 0)))
     = Some (mkIterator None))
  ∧ B = full_batches b its
        ++ (if negb (drop_remainder_ d) && negb (bool_decide (n `mod` b = 0))
            then [remainder b its] else [])
  ∧ length (full_batches b its) = n / b
  ∧ Forall (λ g, length g = b) (full_batches b its)
  ∧ length (remainder b its) = n `mod` b
  ∧ concat (full_batches b its) ++ remainder b its = its.
Proof.
  intros Hgen Hres b n B Huni.
  assert (Hb : 0 < b) by (unfold b; lia).
  destruct (run_slice_uniform ctxs 0 Hgen Hres Huni) as [Hrs Hend].
  destruct (full_batches_spec b its Hb) as (Hq & Hfull & Hrem & Hcat).
  split; [done|]. split; [done|]. split; [|done].
  unfold B, batches. by rewrite Hrem.
Qed.
End BatchingSequence.

Lemma seven_conforms : Forall (conforms [(DT_FLOAT, [])]) seven.
Proof.
  unfold seven, conforms. simpl.
  repeat (constructor; [repeat econstructor|]). constructor.
Qed.

(** C2, as stated, fails. Three tuples of shapes (2,3), (2,3), (2,4) in
    batches of three give no batch but [InvalidArgument], then
    end-of-sequence; seven scalars give no batch when the allocator has
    nothing left; and the first call does not return when the batch size is
    beyond what [batch_elements] can reserve, or when the heap has no room
    for it. *)
Lemma batches_not_always_emitted :
  (length ragged = 3
   ∧ fst <$> run (batch_of 3 false false) [plentiful; plentiful]
               (mkIterator (Some (mkSlice ragged 0)))
     = Some [mkResult (shape_mismatch 0 [2; 3] 2 [2; 4]) ragged_partial
               false [];
             end_result])
  ∧ (length seven = 7
     ∧ gn_status ∘ fst
         <$> GetNextInternal (batch_of 3 true false) exhausted_memory
               (mkIterator (Some (mkSlice seven 0))) []
       = Some (errors.ResourceExhausted
                 [MStr "Failed to allocate memory for the batch of component "%string;
                  MNum 0]))
  ∧ run (batch_of (2 ^ 62) true false) [plentiful]
      (mkIterator (Some (mkSlice seven 0))) = None
  ∧ run (batch_of 3 true false) [cramped]
      (mkIterator (Some (mkSlice seven 0))) = None.
Proof. vm_compute. repeat split. Qed.

(** With a batch size past [INT_MAX] and an upstream of [INT_MAX] tuples the
    pull loop takes its counter past [INT_MAX]: the call has no result. *)
Example pull_loop_counter_overflows :
  GetNextInternal (batch_of (2 ^ 31) false false) plentiful
    (mkIterator
       (Some (mkSlice (replicate (Z.to_nat INT_MAX) [filled [] 0]) 0))) []
  = None.
Proof.
  unfold GetNextInternal. cbn [input_impl_].
  change (batch_size_ (batch_of (2 ^ 31) false false)) with (2 ^ 31)%Z.
  assert (Hres : reserve plentiful (2 ^ 31) = true) by (vm_compute; reflexivity).
  rewrite Hres. cbn [negb].
  rewrite slice_pull_loop, drop_0, length_replicate.
  case_decide as Hle; [unfold INT_MAX in Hle; lia|].
  unfold counter_overflows. rewrite app_nil_l, length_replicate.
  rewrite bool_decide_eq_true_2; [done|].
  unfold INT_MAX. change (ok Status_OK && true) with true. lia.
Qed.

(** C2, amended, on seven scalars, in batches of three, the remainder
    dropped: two batches, then end-of-sequence. *)
Lemma batches_of_sequence_witness :
  fst <$> run (batch_of 3 true false)
            [plentiful; plentiful; plentiful; plentiful]
            (mkIterator (Some (mkSlice seven 0)))
  = Some [mkResult Status_OK [mkTensor DT_FLOAT [3] (Some [1; 2; 3]%Z)] false [];
          mkResult Status_OK [mkTensor DT_FLOAT [3] (Some [4; 5; 6]%Z)] false [];
          end_result; end_result].
Proof.
  assert (Hgen : Forall generous [plentiful; plentiful; plentiful; plentiful])
    by (repeat constructor).
  assert (Hres : Forall (reserves (batch_of 3 true false))
                   [plentiful; plentiful; plentiful; plentiful])
    by (repeat constructor).
  assert (Huni : Forall uniform (batches 3 true seven)).
  { apply (conforming_batches_uniform [(DT_FLOAT, [])]);
      [lia|apply seven_conforms]. }
  assert (Hint : counts (batch_of 3 true false))
    by (unfold counts, INT_MAX; simpl; lia).
  destruct (batches_of_sequence seven (batch_of 3 true false) eq_refl Hint _
              Hgen Hres Huni) as [Hrun _].
  rewrite Hrun. vm_compute. reflexivity.
Defined.

(** The amended statement reaches sequences that are ragged as a whole: two
    tuples of shape (2) followed by two of shape (3), in batches of two. *)
Example ragged_across_batches :
  fst <$> run (batch_of 2 false false) [plentiful; plentiful; plentiful]
            (mkIterator (Some (mkSlice two_and_two 0)))
  = Some [mkResult Status_OK [mkTensor DT_FLOAT [2; 2] (Some [1; 1; 2; 2]%Z)]
            false [];
          mkResult Status_OK
            [mkTensor DT_FLOAT [2; 3] (Some [3; 3; 3; 4; 4; 4]%Z)] false [];
          end_result].
Proof.
  assert (Hgen : Forall generous [plentiful; plentiful; plentiful])
    by (repeat constructor).
  assert (Hres : Forall (reserves (batch_of 2 false false))
                   [plentiful; plentiful; plentiful])
    by (repeat constructor).
  assert (Huni : Forall uniform (batches 2 false two_and_two)).
  { repeat constructor.
    - exists [(DT_FLOAT, [2])]. repeat (constructor; [repeat econstructor|]).
      constructor.
    - exists [(DT_FLOAT, [3])]. repeat (constructor; [repeat econstructor|]).
      constructor. }
  assert (Hint : counts (batch_of 2 false false))
    by (unfold counts, INT_MAX; simpl; lia).
  destruct (run_slice_uniform two_and_two (batch_of 2 false false) eq_refl
              Hint _ 0 Hgen Hres Huni) as [Hrun _].
  rewrite Hrun. vm_compute. reflexivity.
Qed.

(** ** Which copy error is reported *)

(** Two tuples whose copies both fail, for different reasons: the sequential
    mode and a runner that finishes the tasks in order report the failure of
    index 0, a runner that lets the task of index 1 finish first reports the
    failure of index 1. *)
Example error_aggregation_differs :
  let bad := [[mkTensor DT_FLOAT [2] None];
              [mkTensor DT_INT32 [2] (Some [5; 5]%Z)]] in
  let call d ctx :=
    gn_status ∘ fst
      <$> GetNextInternal d ctx (mkIterator (Some (mkSlice bad 0))) [] in
  call (batch_of 2 false false) out_of_order
  = Some (errors.Internal
            [MStr "Cannot copy slice: uninitialized tensor."%string])
  ∧ call (batch_of 2 false true) plentiful
    = Some (errors.Internal
              [MStr "Cannot copy slice: uninitialized tensor."%string])
  ∧ call (batch_of 2 false true) out_of_order
    = Some (errors.Internal
              [MStr "Cannot copy slice: the element does not match. Shapes are: "%string;
               MShape [2]; MShape [2]]).
Proof. vm_compute. repeat split. Qed.

(** * Further properties *)

(** ** Cardinality *)

Section CardinalityProperties.
Variables kInfiniteCardinality kUnknownCardinality : Z.
Hypothesis infinite_is_no_count : (kInfiniteCardinality < 0)%Z.
Hypothesis unknown_is_no_count : (kUnknownCardinality < 0)%Z.

(** X1. For a finite upstream cardinality [n] and a positive batch size [b],
    the cardinality [c] of the batched dataset lies between 0 and [n]; when
    the remainder is kept the [c] batches cover the [n] elements with less
    than one batch to spare, and when it is dropped they hold at most [n]
    elements and leave fewer than [b] out. *)
Theorem Cardinality_bounds d :
  let n := in_Cardinality (input_ d) in
  let b := batch_size_ d in
  let c := Cardinality kInfiniteCardinality kUnknownCardinality d in
  (0 ≤ n < 2 ^ 63)%Z → (0 < b)%Z →
  (0 ≤ c ≤ n)%Z
  ∧ (drop_remainder_ d = false → (n ≤ c * b < n + b)%Z)
  ∧ (drop_remainder_ d = true → (c * b ≤ n < c * b + b)%Z).
Proof.
  intros n b c Hn Hb. unfold c.
  rewrite (Cardinality_finite _ _ infinite_is_no_count unknown_is_no_count d)
    by (fold n b; lia).
  fold n b.
  pose proof (Z.div_mod n b ltac:(lia)) as Hdm.
  pose proof (Z.mod_pos_bound n b Hb) as Hr.
  assert (0 ≤ n `div` b)%Z by (apply Z.div_pos; lia).
  destruct (drop_remainder_ d); case_bool_decide; simpl;
    (split; [nia|split; [intros; try done; nia|intros; try done; nia]]).
Qed.
End CardinalityProperties.

(** X1 for 10 elements in batches of 3, the remainder kept. *)
Lemma Cardinality_bounds_witness :
  let c := Cardinality (-1) (-2) (batch_of_card 10 3 false) in
  (0 ≤ c ≤ 10)%Z ∧ (10 ≤ c * 3 < 10 + 3)%Z.
Proof.
  destruct (Cardinality_bounds (-1) (-2) eq_refl eq_refl
              (batch_of_card 10 3 false)) as (H1 & H2 & _).
  - simpl. lia.
  - simpl. lia.
  - split; [exact H1|exact (H2 eq_refl)].
Defined.

Lemma length_batches {A} b dr (l : list A) :
  0 < b →
  length (batches b dr l)
  = length l / b
    + (if negb dr && negb (bool_decide (length l `mod` b = 0)) then 1 else 0).
Proof.
  intros Hb. destruct (full_batches_spec b l Hb) as (Hq & _ & Hr & _).
  unfold batches. rewrite length_app, Hq, Hr.
  by destruct (negb dr && _).
Qed.

Section CardinalityOfIterator.
Variables kInfiniteCardinality kUnknownCardinality : Z.
Hypothesis infinite_is_no_count : (kInfiniteCardinality < 0)%Z.
Hypothesis unknown_is_no_count : (kUnknownCardinality < 0)%Z.
Variable sig : list (DataType * TensorShape).
Variable its : list (list Tensor).
Hypothesis its_conform : Forall (conforms sig) its.
Variable d : Dataset.
Hypothesis batch_size_positive : (0 < batch_size_ d)%Z.
Hypothesis batch_size_counts : counts d.
Hypothesis input_cardinality : in_Cardinality (input_ d) = Z.of_nat (length its).
Hypothesis input_fits : (Z.of_nat (length its) < 2 ^ 63)%Z.

Lemma Cardinality_length_batches :
  Cardinality kInfiniteCardinality kUnknownCardinality d
  = Z.of_nat (length (batches (Z.to_nat (batch_size_ d)) (drop_remainder_ d) its)).
Proof.
  pose proof (Cardinality_finite _ _ infinite_is_no_count
                unknown_is_no_count d) as Hfin.
  cbv zeta in Hfin. rewrite input_cardinality in Hfin.
  rewrite Hfin, length_batches by lia.
  set (b := Z.to_nat (batch_size_ d)).
  replace (batch_size_ d) with (Z.of_nat b) by (unfold b; lia).
  rewrite Nat2Z.inj_add, Nat2Z.inj_div. f_equal.
  rewrite <- Nat2Z.inj_mod.
  destruct (drop_remainder_ d); simpl.
  - by rewrite andb_false_r.
  - rewrite andb_true_r. repeat case_bool_decide; simpl; lia.
Qed.

(** X2. What [Cardinality] announces is what the iterator delivers: over an
    upstream of [n] conforming tuples, for a batch size that the counter of
    the pull loop can reach, in contexts whose allocator does not fail and
    that have room for the accumulation list, the calls all return and give
    exactly [Cardinality] batches and then end-of-sequence. *)
Theorem iterator_emits_Cardinality ctxs :
  Forall generous ctxs → Forall (reserves d) ctxs →
  let c := Z.to_nat (Cardinality kInfiniteCardinality kUnknownCardinality d) in
  c ≤ length ctxs →
  ∃ B,
    length B = c
    ∧ fst <$> run d ctxs (mkIterator (Some (mkSlice its 0)))
      = Some (map emitted B ++ replicate (length ctxs - c) end_result).
Proof.
  intros Hgen Hres c Hc.
  exists (batches (Z.to_nat (batch_size_ d)) (drop_remainder_ d) its).
  assert (Hlen : length (batches (Z.to_nat (batch_size_ d))
                           (drop_remainder_ d) its) = c).
  { unfold c. rewrite Cardinality_length_batches. lia. }
  split; [done|].
  pose proof (run_slice_conforming its d batch_size_positive
                batch_size_counts sig ctxs 0 its_conform Hgen Hres) as Hrun.
  cbv zeta in Hrun. change (drop 0 its) with its in Hrun.
  rewrite Hrun, Hlen, take_ge by lia. done.
Qed.
End CardinalityOfIterator.

(** X2 on seven scalars in batches of three: three batches when the
    remainder is kept. *)
Lemma iterator_emits_Cardinality_witness :
  ∃ B,
    length B = 3
    ∧ fst <$> run (batch_of_card 7 3 false)
                [plentiful; plentiful; plentiful; plentiful]
                (mkIterator (Some (mkSlice seven 0)))
      = Some (map emitted B ++ replicate 1 end_result).
Proof.
  assert (Hgen : Forall generous [plentiful; plentiful; plentiful; plentiful])
    by (repeat constructor).
  assert (Hres : Forall (reserves (batch_of_card 7 3 false))
                   [plentiful; plentiful; plentiful; plentiful])
    by (repeat constructor).
  assert (Hint : counts (batch_of_card 7 3 false))
    by (unfold counts, INT_MAX; simpl; lia).
  refine (iterator_emits_Cardinality (-1) (-2) eq_refl eq_refl
            [(DT_FLOAT, [])] seven seven_conforms (batch_of_card 7 3 false)
            eq_refl Hint eq_refl eq_refl _ Hgen Hres _).
  vm_compute. lia.
Defined.

(** ** The kernel *)

(** With arguments that parse, the kernel builds what [MakeDataset] builds
    from the parsed values. *)
Lemma BatchDatasetOp_MakeDataset_parsed k (args : gmap string ArgValue) input b dr :
  args !! kBatchSize = Some (ArgInt64 b) →
  args !! kDropRemainder = Some (ArgBool dr) →
  BatchDatasetOp_MakeDataset k args input
  = MakeDataset (kernel_op_version_ k) (kernel_parallel_copy_ k) b dr input.
Proof.
  intros Hb Hdr.
  unfold BatchDatasetOp_MakeDataset, MakeDataset, ParseScalarArgument_int64,
    ParseScalarArgument_bool.
  rewrite Hb, Hdr. simpl.
  repeat case_bool_decide; simpl; try done; lia.
Qed.

(** When the kernel builds a dataset, and which. *)
Lemma BatchDatasetOp_MakeDataset_inr k (args : gmap string ArgValue) input d :
  BatchDatasetOp_MakeDataset k args input = inr d
  ↔ ∃ b dr,
      args !! kBatchSize = Some (ArgInt64 b)
      ∧ (0 < b)%Z
      ∧ (if bool_decide (kernel_op_version_ k > 1)%Z
         then args !! kDropRemainder = Some (ArgBool dr)
         else dr = false)
      ∧ d = Dataset_new b dr (kernel_parallel_copy_ k) input
              (kernel_op_version_ k).
Proof.
  unfold BatchDatasetOp_MakeDataset, ParseScalarArgument_int64,
    ParseScalarArgument_bool.
  split.
  - destruct (args !! kBatchSize) as [[b|?]|] eqn:Hb; simpl; try done.
    case_bool_decide as Hpos; simpl; [|done].
    case_bool_decide as Hv.
    + destruct (args !! kDropRemainder) as [[?|dr]|] eqn:Hdr; simpl; try done.
      intros [= <-]. exists b, dr. repeat split; try done; lia.
    + simpl. intros [= <-]. exists b, false. repeat split; try done; lia.
  - intros (b & dr & Hb & Hpos & Hdr & ->). rewrite Hb. simpl.
    rewrite (bool_decide_eq_true_2 (b > 0)%Z) by lia. simpl.
    case_bool_decide.
    + by rewrite Hdr.
    + by subst dr.
Qed.

(** X3. The kernel builds a dataset exactly when the batch size argument is
    an int64 scalar greater than zero and, for the V2 op, the drop-remainder
    argument is a bool scalar; the dataset then has that batch size, the
    kernel's [parallel_copy], and drops the remainder only if the op is V2 and
    the argument says so. Every other call gives up with an error. *)
Theorem BatchDatasetOp_MakeDataset_spec k (args : gmap string ArgValue) input d :
  BatchDatasetOp_MakeDataset k args input = inr d
  ↔ ∃ b dr,
      args !! kBatchSize = Some (ArgInt64 b)
      ∧ (0 < b)%Z
      ∧ (if bool_decide (kernel_op_version_ k > 1)%Z
         then args !! kDropRemainder = Some (ArgBool dr)
         else dr = false)
      ∧ d = Dataset_new b dr (kernel_parallel_copy_ k) input
              (kernel_op_version_ k).
Proof. apply BatchDatasetOp_MakeDataset_inr. Qed.

Lemma concat_batches_keep {A} b (l : list A) :
  0 < b → concat (batches b false l) = l.
Proof.
  intros Hb. destruct (full_batches_spec b l Hb) as (_ & _ & _ & Hcat).
  unfold batches. simpl. case_bool_decide as Hrem; simpl.
  - apply nil_length_inv in Hrem. rewrite Hrem in Hcat.
    by rewrite !app_nil_r in *.
  - rewrite concat_app. simpl. by rewrite app_nil_r.
Qed.

(** X4. A kernel created for the op "BatchDataset" never reads the
    drop-remainder argument: whatever is stored under that name, the dataset
    it builds keeps the remainder, declares an unknown outer dimension for
    every slot, and its iterator emits every tuple of a finite conforming
    upstream, for a batch size that the counter of the pull loop can reach,
    in contexts whose allocator does not fail and that have room for the
    accumulation list. *)
Theorem v1_kernel_keeps_remainder ctx k (args : gmap string ArgValue) input d :
  def_op ctx = kBatchDataset →
  BatchDatasetOp_new ctx = inr k →
  BatchDatasetOp_MakeDataset k args input = inr d →
  drop_remainder_ d = false
  ∧ (∀ v, BatchDatasetOp_MakeDataset k (<[kDropRemainder := v]> args) input
          = inr d)
  ∧ Forall (λ sh, head sh = Some (-1)%Z) (output_shapes d)
  ∧ ∀ sig its ctxs,
      Forall (conforms sig) its → counts d →
      Forall generous ctxs → Forall (reserves d) ctxs →
      ∃ B, concat B = its
           ∧ fst <$> run d ctxs (mkIterator (Some (mkSlice its 0)))
             = Some (map emitted (take (length ctxs) B)
                     ++ replicate (length ctxs - length B) end_result).
Proof.
  intros Hop Hk Hd.
  assert (Hv : kernel_op_version_ k = 1%Z).
  { unfold BatchDatasetOp_new in Hk.
    rewrite (bool_decide_eq_true_2 _ Hop) in Hk.
    destruct (HasAttr ctx kParallelCopy); [|by simplify_eq].
    destruct (GetAttr_bool ctx kParallelCopy) as [s p].
    destruct (ok s); by simplify_eq. }
  pose proof (proj1 (BatchDatasetOp_MakeDataset_inr k args input d) Hd)
    as (b & dr & Hb & Hpos & Hdr & ->).
  rewrite Hv in Hdr. simpl in Hdr. subst dr.
  split; [done|]. split; [|split].
  - intros v. apply BatchDatasetOp_MakeDataset_inr. exists b, false.
    rewrite lookup_insert_ne by done. rewrite Hv. done.
  - unfold output_shapes. simpl. apply Forall_forall. intros sh Hsh.
    apply list_elem_of_In, in_map_iff in Hsh as (sh' & <- & _). done.
  - intros sig its ctxs Hconf Hint Hgen Hres.
    exists (batches (Z.to_nat b) false its).
    split; [apply concat_batches_keep; lia|].
    exact (run_slice_conforming its
             (Dataset_new b false (kernel_parallel_copy_ k) input
                (kernel_op_version_ k))
             ltac:(simpl; lia) Hint sig ctxs 0 Hconf Hgen Hres).
Qed.

(** X4 on the node of a V1 op, with the drop-remainder argument set: the
    dataset keeps the remainder. *)
Lemma v1_kernel_keeps_remainder_witness :
  drop_remainder_ (Dataset_new 3 false false (mkDatasetBase [DT_FLOAT] [[]] 7) 1)
  = false.
Proof.
  refine (proj1 (v1_kernel_keeps_remainder
            (mkConstruction kBatchDataset ∅) (mkBatchDatasetOp 1 false)
            (<[kBatchSize := ArgInt64 3]> (<[kDropRemainder := ArgBool true]> ∅))
            (mkDatasetBase [DT_FLOAT] [[]] 7)
            (Dataset_new 3 false false (mkDatasetBase [DT_FLOAT] [[]] 7) 1)
            _ _ _));
    vm_compute; reflexivity.
Defined.

(** ** What an emitted batch holds *)

Section EmittedBatch.
Context {U : Type} `{!IteratorBase U}.

(** A call that returns OK without end-of-sequence: what it pulled and what
    it appended. *)
Lemma GetNextInternal_emitted d ctx (u : U) out r it' :
  (0 < batch_size_ d)%Z →
  GetNextInternal d ctx (mkIterator (Some u)) out = Some (r, it') →
  ok (gn_status r) = true →
  gn_end_of_sequence r = false →
  ∃ s eos h be,
    pull_loop ctx (Z.to_nat (batch_size_ d)) u [] = (s, eos, h, be)
    ∧ r = mkResult Status_OK (out ++ stacked be) false []
    ∧ 1 ≤ length be ≤ Z.to_nat (batch_size_ d)
    ∧ (drop_remainder_ d = true → length be = Z.to_nat (batch_size_ d))
    ∧ ∀ c j, c < length (be !!! 0) → j < length be →
        shape (element_at be j c) = shape (element_at be 0 c)
        ∧ dtype (element_at be j c) = dtype (element_at be 0 c).
Proof.
  intros Hb Hg Hok Heos.
  apply GetNextInternal_Some in Hg as (_ & _ & Hg). unfold next_batch in Hg.
  destruct (pull_loop ctx (Z.to_nat (batch_size_ d)) u [])
    as [[[s eos] h] be] eqn:Hp.
  exists s, eos, h, be. split; [done|].
  destruct (ok s) eqn:Hs; simpl in Hg; [|simplify_eq; simpl in *; congruence].
  apply pull_loop_ok in Hp as (-> & got & Hbe & Hcase); [|done].
  simpl in Hbe. subst got.
  assert (Hlen : length be ≤ Z.to_nat (batch_size_ d)).
  { destruct Hcase as [(_ & _ & ?)|(_ & _ & ?)]; lia. }
  case_bool_decide as Hnil.
  { simplify_eq. simpl in *.
    destruct Hcase as [(_ & _ & ?)|(? & _)]; [lia|congruence]. }
  assert (1 ≤ length be) by (destruct be; [done|simpl; lia]).
  destruct (drop_remainder_ d
            && bool_decide (Z.of_nat (length be) < batch_size_ d)%Z) eqn:Hdrop;
    [simplify_eq; simpl in *; done|].
  destruct (asm_return (assemble ctx (parallel_copy_ d) be out)) as [s'|] eqn:Ha.
  { pose proof (assemble_loop_return _ _ _ _ _ _ _ Ha).
    simplify_eq. simpl in *. congruence. }
  destruct (assemble_sound _ _ _ _ Ha) as [Heq Hall].
  rewrite Heq in Hg. simplify_eq. simpl.
  split; [done|]. split; [lia|]. split; [|done].
  intros Hdr. rewrite Hdr in Hdrop. simpl in Hdrop.
  apply bool_decide_eq_false in Hdrop. lia.
Qed.

(** X5. Whatever the upstream and the mode: a call that returns OK without
    end-of-sequence has pulled between one and [batch_size] tuples, exactly
    [batch_size] when the remainder is dropped; these tuples agree on the
    shape and dtype of every slot; and the call has appended to
    [*out_tensors] precisely the containers that stack their values, leaving
    no copy task unjoined. *)
Theorem emitted_batch_is_stacked d ctx (u : U) out r it' :
  (0 < batch_size_ d)%Z →
  GetNextInternal d ctx (mkIterator (Some u)) out = Some (r, it') →
  ok (gn_status r) = true →
  gn_end_of_sequence r = false →
  ∃ s eos h be,
    pull_loop ctx (Z.to_nat (batch_size_ d)) u [] = (s, eos, h, be)
    ∧ r = mkResult Status_OK (out ++ stacked be) false []
    ∧ 1 ≤ length be ≤ Z.to_nat (batch_size_ d)
    ∧ (drop_remainder_ d = true → length be = Z.to_nat (batch_size_ d))
    ∧ ∀ c j, c < length (be !!! 0) → j < length be →
        shape (element_at be j c) = shape (element_at be 0 c)
        ∧ dtype (element_at be j c) = dtype (element_at be 0 c).
Proof. apply GetNextInternal_emitted. Qed.
End EmittedBatch.

(** X5 on seven scalars in batches of three: the first call emits the stack
    of the first three. *)
Lemma emitted_batch_is_stacked_witness :
  ∃ s eos h be,
    pull_loop plentiful 3 (mkSlice seven 0) [] = (s, eos, h, be)
    ∧ emitted (take 3 seven) = mkResult Status_OK ([] ++ stacked be) false []
    ∧ 1 ≤ length be ≤ 3
    ∧ (true = true → length be = 3)
    ∧ ∀ c j, c < length (be !!! 0) → j < length be →
        shape (element_at be j c) = shape (element_at be 0 c)
        ∧ dtype (element_at be j c) = dtype (element_at be 0 c).
Proof.
  refine (emitted_batch_is_stacked (batch_of 3 true false) plentiful
            (mkSlice seven 0) [] (emitted (take 3 seven))
            (mkIterator (Some (mkSlice seven 3))) _ _ _ _);
    vm_compute; reflexivity.
Defined.

(** ** Emitted tensors and the declared output *)

Lemma fmap_seq_lookup_total {A B} `{!Inhabited A} (f : A → B) (l : list A) :
  (λ c, f (l !!! c)) <$> seq 0 (length l) = f <$> l.
Proof.
  apply list_eq. intros i. rewrite !list_lookup_fmap.
  destruct (decide (i < length l)) as [Hi|Hi].
  - rewrite lookup_seq_lt by done. simpl.
    destruct (lookup_lt_is_Some_2 l i Hi) as [x Hx].
    by rewrite Hx, (list_lookup_total_correct _ _ _ Hx).
  - rewrite lookup_seq_ge, lookup_ge_None_2 by lia. done.
Qed.

Lemma output_shapes_Dataset_new b drop par input v :
  output_shapes (Dataset_new b drop par input v)
  = (λ sh, (if drop then b else (-1)%Z) :: sh) <$> in_output_shapes input.
Proof.
  unfold output_shapes, Dataset_new. simpl.
  apply list_fmap_ext. intros _ sh _. by destruct drop.
Qed.

Section DeclaredOutput.
Context {U : Type} `{!IteratorBase U}.

(** X6. The descriptor and the iterator agree: when the upstream hands out
    tuples that have the dtypes and shapes the input dataset declares, the
    tensors appended by a call that returns OK without end-of-sequence have
    the dtypes of [output_dtypes] and shapes that [output_shapes] allows, the
    outer dimension being the declared batch size when the remainder is
    dropped. *)
Theorem emitted_tensors_match_declared b drop par input v ctx (u : U) out r it' :
  let d := Dataset_new b drop par input v in
  (0 < b)%Z →
  GetNextInternal d ctx (mkIterator (Some u)) out = Some (r, it') →
  ok (gn_status r) = true →
  gn_end_of_sequence r = false →
  Forall (honours input) (pull_loop ctx (Z.to_nat b) u []).2 →
  ∃ extra,
    gn_out_tensors r = out ++ extra
    ∧ map dtype extra = output_dtypes d
    ∧ Forall2 compatible (output_shapes d) (map shape extra).
Proof.
  intros d Hb Hg Hok Heos Hhon.
  destruct (GetNextInternal_emitted d ctx u out r it' Hb Hg Hok Heos)
    as (s & eos & h & be & Hp & -> & [Hlen1 Hlen2] & Hdrop & _).
  simpl in Hp. rewrite Hp in Hhon. simpl in Hhon.
  exists (stacked be). split; [done|].
  destruct be as [|e0 rest] eqn:Hbe; [simpl in Hlen1; lia|].
  rewrite <- Hbe in *.
  assert (He0 : be !!! 0 = e0) by (by rewrite Hbe).
  assert (Hh0 : honours input e0).
  { apply (proj1 (Forall_forall _ _) Hhon). rewrite Hbe. by left. }
  destruct Hh0 as [Hdt Hsh].
  unfold stacked. rewrite He0.
  change (map ?f ?l) with (f <$> l) in *.
  rewrite <- !list_fmap_compose.
  split.
  - unfold output_dtypes. simpl. rewrite <- Hdt.
    rewrite <- (fmap_seq_lookup_total dtype e0).
    apply list_fmap_ext. intros _ c _. simpl.
    unfold element_at. by rewrite He0.
  - unfold d. rewrite output_shapes_Dataset_new.
    assert (Hshapes : (shape ∘ stack_slot be) <$> seq 0 (length e0)
                      = (λ sh, length be :: sh) <$> (shape <$> e0)).
    { rewrite <- (fmap_seq_lookup_total shape e0), <- list_fmap_compose.
      apply list_fmap_ext. intros _ c _. simpl.
      unfold element_at. by rewrite He0. }
    rewrite Hshapes. apply Forall2_fmap.
    eapply Forall2_impl; [exact Hsh|].
    intros psh sh Hcompat. simpl. constructor; [|done].
    destruct drop; [right|by left].
    simpl in Hdrop. rewrite (Hdrop eq_refl). lia.
Qed.
End DeclaredOutput.

(** X6 on seven scalars in batches of three, for an input that declares
    float scalars. *)
Lemma emitted_tensors_match_declared_witness :
  ∃ extra,
    stacked (take 3 seven) = [] ++ extra
    ∧ map dtype extra = [DT_FLOAT]
    ∧ Forall2 compatible [[3%Z]] (map shape extra).
Proof.
  refine (emitted_tensors_match_declared 3 true false
            (mkDatasetBase [DT_FLOAT] [[]] (-2)) 2 plentiful
            (mkSlice seven 0) [] (emitted (take 3 seven))
            (mkIterator (Some (mkSlice seven 3))) _ _ _ _ _);
    try (vm_compute; reflexivity).
  vm_compute. repeat constructor.
Defined.

(** ** What a call does to [*out_tensors] and to the upstream *)

Lemma advance_S_r {U} `{!IteratorBase U} ctx k (u : U) :
  advance ctx (S k) u = advance ctx k (GetNext ctx u).2.
Proof. unfold advance. by rewrite Nat.iter_succ_r. Qed.

Section Calls.
Context {U : Type} `{!IteratorBase U}.

(** X7. A call that returns never removes or rewrites what the caller had
    in [*out_tensors]: it only appends; and it appends nothing when it
    returns OK with end-of-sequence, or when an upstream error ends it. *)
Theorem out_tensors_only_appended d ctx (it : Iterator U) out r it' :
  GetNextInternal d ctx it out = Some (r, it') →
  ∃ extra,
    gn_out_tensors r = out ++ extra
    ∧ (ok (gn_status r) = true → gn_end_of_sequence r = true → extra = [])
    ∧ (∀ u, input_impl_ it = Some u →
         ok (pull_loop ctx (Z.to_nat (batch_size_ d)) u []).1.1.1 = false →
         extra = []).
Proof.
  intros Hg. destruct it as [[u|]]; simpl.
  - apply GetNextInternal_Some in Hg as (_ & _ & Hg).
    assert (Hr : r = (next_batch d ctx u out).1) by (by rewrite Hg).
    rewrite Hr. clear Hg Hr. unfold next_batch.
    destruct (pull_loop ctx (Z.to_nat (batch_size_ d)) u [])
      as [[[s eos] h] be] eqn:Hp. simpl.
    destruct (ok s) eqn:Hs; simpl.
    + destruct (bool_decide (be = [])); simpl.
      { exists []. by rewrite app_nil_r. }
      destruct (_ && _); simpl.
      { exists []. by rewrite app_nil_r. }
      unfold assemble.
      destruct (assemble_loop_out ctx (parallel_copy_ d) be
                  (length (be !!! 0)) 0 out) as (extra & Hout & _ & _).
      assert (Hpull : ∀ u0, Some u = Some u0 →
                ok (pull_loop ctx (Z.to_nat (batch_size_ d)) u0 []).1.1.1 = false →
                extra = []).
      { intros ? [= <-]. rewrite Hp. simpl. congruence. }
      destruct (asm_return _) as [s'|] eqn:Ha; simpl; exists extra.
      * split; [done|]. split; [|done].
        apply assemble_loop_return in Ha. congruence.
      * split; [done|]. split; done.
    + exists []. by rewrite app_nil_r.
  - injection Hg as <- <-. exists []. rewrite app_nil_r. repeat split; done.
Qed.

(** The pulls of one call, for any tuples gathered before. *)
Lemma pull_loop_trace_from ctx todo :
  ∀ (u : U) acc s eos h be,
    pull_loop ctx todo u acc = (s, eos, h, be) →
    ∃ got,
      be = acc ++ got
      ∧ length got ≤ todo
      ∧ (∀ j, j < length got →
           ∃ sj, nth_pull ctx u j
                 = (sj, got !!! j, false, advance ctx (S j) u)
                 ∧ ok sj = true)
      ∧ ((length got = todo ∧ s = Status_OK ∧ eos = false
          ∧ h = Some (advance ctx todo u))
         ∨ (length got < todo ∧ s = Status_OK ∧ eos = true ∧ h = None
            ∧ ok (nth_pull ctx u (length got)).1.1.1 = true
            ∧ (nth_pull ctx u (length got)).1.2 = true)
         ∨ (length got < todo ∧ ok s = false
            ∧ (nth_pull ctx u (length got)).1.1.1 = s
            ∧ h = Some (advance ctx (S (length got)) u))).
Proof.
  induction todo as [|todo IH]; intros u acc s eos h be Hp; simpl in Hp.
  - simplify_eq. exists []. rewrite app_nil_r.
    split; [done|]. split; [done|]. split; [simpl; intros; lia|]. by left.
  - destruct (GetNext ctx u) as [[[s1 t] e] u'] eqn:Hg.
    destruct (ok s1) eqn:Hs1; simpl in Hp.
    + destruct e; simpl in Hp.
      * simplify_eq. exists []. rewrite app_nil_r.
        split; [done|]. split; [simpl; lia|]. split; [simpl; intros; lia|].
        right. left. unfold nth_pull, advance. simpl. rewrite Hg. simpl.
        repeat split; try done. lia.
      * destruct (IH _ _ _ _ _ _ Hp) as (got & -> & Hlen & Hpulls & Hend).
        exists (t :: got). rewrite <- app_assoc.
        split; [done|]. split; [simpl; lia|].
        assert (Hshift : ∀ j, nth_pull ctx u (S j) = nth_pull ctx u' j).
        { intros j. unfold nth_pull. rewrite advance_S_r, Hg. done. }
        assert (Hadv : ∀ j, advance ctx (S j) u = advance ctx j u').
        { intros j. rewrite advance_S_r, Hg. done. }
        split.
        -- intros [|j] Hj.
           ++ exists s1. unfold nth_pull, advance. simpl. rewrite Hg. done.
           ++ simpl in Hj. destruct (Hpulls j ltac:(lia)) as (sj & Hj' & Hokj).
              exists sj. rewrite Hshift, Hj', Hadv. done.
        -- cbn [length]. rewrite !Hshift, !Hadv.
           destruct Hend as [(?&?&?&?)|[(?&?&?&?&?&?)|(?&?&?&?)]].
           ++ left. repeat split; try done. lia.
           ++ right. left. repeat split; try done. lia.
           ++ right. right. repeat split; try done. lia.
    + simplify_eq. exists []. rewrite app_nil_r.
      split; [done|]. split; [simpl; lia|]. split; [simpl; intros; lia|].
      right. right. unfold nth_pull, advance. simpl. rewrite Hg. simpl.
      repeat split; try done. lia.
Qed.

(** X8. The pulls of one call: the upstream is pulled in turn, at most
    [batch_size] times; the batch holds, in that order, the tuples of the
    pulls that produced one; the loop stops after [batch_size] of them with
    the handle at the state reached, or at the first pull that signals
    end-of-sequence, dropping the handle, or at the first pull that fails,
    returning its status and keeping the handle past that pull. *)
Theorem pull_loop_trace ctx todo (u : U) s eos h be :
  pull_loop ctx todo u [] = (s, eos, h, be) →
  length be ≤ todo
  ∧ (∀ j, j < length be →
       ∃ sj, nth_pull ctx u j = (sj, be !!! j, false, advance ctx (S j) u)
             ∧ ok sj = true)
  ∧ ((length be = todo ∧ s = Status_OK ∧ eos = false
      ∧ h = Some (advance ctx todo u))
     ∨ (length be < todo ∧ s = Status_OK ∧ eos = true ∧ h = None
        ∧ ok (nth_pull ctx u (length be)).1.1.1 = true
        ∧ (nth_pull ctx u (length be)).1.2 = true)
     ∨ (length be < todo ∧ ok s = false
        ∧ (nth_pull ctx u (length be)).1.1.1 = s
        ∧ h = Some (advance ctx (S (length be)) u))).
Proof.
  intros Hp. destruct (pull_loop_trace_from _ _ _ _ _ _ _ _ Hp)
    as (got & -> & H1 & H2 & H3).
  done.
Qed.

(** X9. Only the dropping of a remainder makes a call that returns OK lose
    tuples: a call that returns OK with end-of-sequence has pulled fewer
    than [batch_size] tuples, appended nothing and left the iterator
    exhausted; when [drop_remainder] is false it has pulled none. *)
Theorem only_drop_remainder_discards d ctx (u : U) out r it' :
  GetNextInternal d ctx (mkIterator (Some u)) out = Some (r, it') →
  ok (gn_status r) = true →
  gn_end_of_sequence r = true →
  let be := (pull_loop ctx (Z.to_nat (batch_size_ d)) u []).2 in
  gn_out_tensors r = out
  ∧ it' = mkIterator None
  ∧ length be < Z.to_nat (batch_size_ d)
  ∧ (drop_remainder_ d = false → be = []).
Proof.
  intros Hg Hok Heos.
  apply GetNextInternal_Some in Hg as (_ & _ & Hg). unfold next_batch in Hg.
  destruct (pull_loop ctx (Z.to_nat (batch_size_ d)) u [])
    as [[[s eos] h] be] eqn:Hp. simpl.
  destruct (ok s) eqn:Hs; simpl in Hg; [|simplify_eq; simpl in *; congruence].
  apply pull_loop_ok in Hp as (-> & got & Hbe & Hcase); [|done].
  simpl in Hbe. subst got.
  case_bool_decide as Hnil.
  { simplify_eq. simpl in *. subst eos.
    destruct Hcase as [(? & _)|(_ & -> & ?)]; [done|].
    repeat split; try done. }
  destruct (drop_remainder_ d
            && bool_decide (Z.of_nat (length be) < batch_size_ d)%Z) eqn:Hdrop.
  { simplify_eq. simpl in *.
    apply andb_true_iff in Hdrop as [Hdr Hlt].
    apply bool_decide_eq_true in Hlt.
    destruct Hcase as [(_ & _ & ?)|(_ & -> & ?)]; [lia|].
    repeat split; try done. intros Hf. by rewrite Hf in Hdr. }
  destruct (asm_return _) as [s'|] eqn:Ha.
  - pose proof (assemble_loop_return _ _ _ _ _ _ _ Ha).
    simplify_eq. simpl in *. congruence.
  - by simplify_eq.
Qed.
End Calls.

(** X7 on the three tuples of shapes (2,3), (2,3), (2,4), for a caller that
    had one tensor in [*out_tensors]: it is still there, in front of what the
    failed call appended. *)
Lemma out_tensors_only_appended_witness :
  ∃ extra, filled [] 9 :: ragged_partial = [filled [] 9] ++ extra.
Proof.
  assert (Hg : GetNextInternal (batch_of 3 false false) plentiful
                 (mkIterator (Some (mkSlice ragged 0))) [filled [] 9]
               = Some (mkResult (shape_mismatch 0 [2; 3] 2 [2; 4])
                         (filled [] 9 :: ragged_partial) false [],
                       mkIterator (Some (mkSlice ragged 3))))
    by (vm_compute; reflexivity).
  destruct (out_tensors_only_appended _ _ _ _ _ _ Hg) as (extra & Hout & _).
  exists extra. exact Hout.
Defined.

(** X8 on seven scalars with three pulls asked for: three tuples. *)
Lemma pull_loop_trace_witness : length (take 3 seven) ≤ 3.
Proof.
  refine (proj1 (pull_loop_trace plentiful 3 (mkSlice seven 0) Status_OK false
                   (Some (mkSlice seven 3)) (take 3 seven) _)).
  vm_compute; reflexivity.
Defined.

(** X9 on seven scalars in batches of three, the remainder dropped, at the
    call that finds the seventh scalar alone. *)
Lemma only_drop_remainder_discards_witness :
  let be := (pull_loop plentiful 3 (mkSlice seven 6) []).2 in
  @nil Tensor = []
  ∧ mkIterator (@None SliceIterator) = mkIterator None
  ∧ length be < 3
  ∧ (true = false → be = []).
Proof.
  refine (only_drop_remainder_discards (batch_of 3 true false) plentiful
            (mkSlice seven 6) [] end_result (mkIterator None) _ _ _);
    vm_compute; reflexivity.
Defined.

(** ** Sequential copies and the runner *)

Lemma copy_loop_seq_scheduled c be fs todo :
  ∀ i0 st,
    match copy_loop false c be fs todo i0 st with
    | inl (_, st') | inr st' => cs_scheduled st' = cs_scheduled st
    end.
Proof.
  induction todo as [|todo IH]; intros i0 st; simpl; [done|].
  case_bool_decide; [done|].
  destruct (run_task _ _ _ _) as [status comp].
  specialize (IH (S i0) (mkCopyState status comp (cs_scheduled st))).
  by destruct (copy_loop _ _ _ _ _ _ _) as [[? ?]|?].
Qed.

Section SequentialCopy.
Variables ctx ctx' : IteratorContext.
Hypothesis same_allocator : ∀ k dt sh, alloc_ok ctx k dt sh = alloc_ok ctx' k dt sh.

Lemma assemble_component_seq be c out :
  assemble_component ctx false be c out = assemble_component ctx' false be c out
  ∧ asm_unjoined (assemble_component ctx false be c out) = [].
Proof.
  assert (Halloc : ∀ dt sh, Tensor_alloc ctx c dt sh = Tensor_alloc ctx' c dt sh).
  { intros dt sh. unfold Tensor_alloc. by rewrite same_allocator. }
  unfold assemble_component. rewrite Halloc.
  destruct (negb _); [done|].
  pose proof (copy_loop_seq_scheduled c be (shape (element_at be 0 c))
                (length be) 0
                (mkCopyState Status_OK
                   (Tensor_alloc ctx' c (dtype (element_at be 0 c))
                      (length be :: shape (element_at be 0 c)))
                   [])) as Hsched.
  destruct (copy_loop _ _ _ _ _ _ _) as [[[i sh] st]|st]; simpl in Hsched.
  - unfold finished. rewrite Hsched. simpl. by rewrite !take_nil.
  - unfold Wait. rewrite Hsched. simpl.
    by destruct (ok (cs_status st)).
Qed.

Lemma assemble_loop_seq be todo :
  ∀ c out,
    assemble_loop ctx false be todo c out = assemble_loop ctx' false be todo c out
    ∧ asm_unjoined (assemble_loop ctx false be todo c out) = [].
Proof.
  induction todo as [|todo IH]; intros c out; simpl; [done|].
  destruct (assemble_component_seq be c out) as [<- Hun].
  destruct (asm_return (assemble_component ctx false be c out)); [done|].
  apply IH.
Qed.

(** X10. Without [parallel_copy] the assembler hands nothing to the runner:
    what it returns and leaves in [*out_tensors] is the same for two contexts
    that agree on the allocator, whatever their runners do, and no copy task
    is left behind. *)
Theorem sequential_copy_ignores_runner be out :
  assemble ctx false be out = assemble ctx' false be out
  ∧ asm_unjoined (assemble ctx false be out) = [].
Proof. apply assemble_loop_seq. Qed.
End SequentialCopy.

(** X10 on the three tuples of shapes (2,3), (2,3), (2,4), for a runner that
    keeps the order and one that does not. *)
Lemma sequential_copy_ignores_runner_witness :
  assemble plentiful false ragged [] = assemble out_of_order false ragged [].
Proof.
  refine (proj1 (sequential_copy_ignores_runner plentiful out_of_order _
                   ragged [])).
  intros k dt sh. reflexivity.
Defined.

(** ** A writer that already holds the exhausted mark *)

Section StaleMark.
Context {U : Type} `{!IteratorBase U}.
Variable full_name : string → string.
Hypothesis Save_other_keys : ∀ (u : U) (w : Checkpoint),
  (Save u w).2 !! full_name kInputImplEmpty = w !! full_name kInputImplEmpty.

(** X11. [SaveInternal] of an iterator that still has its handle does not
    erase an exhausted mark already in the writer (the upstream leaving that
    key alone): [RestoreInternal] on what was written then drops the handle
    of whatever iterator it is given, and every later call reports
    end-of-sequence. *)
Theorem stale_exhausted_mark ctx (u : U) (tgt : Iterator U) (w : Checkpoint) v :
  w !! full_name kInputImplEmpty = Some v →
  let w' := (SaveInternal full_name (mkIterator (Some u)) w).2 in
  RestoreInternal full_name ctx w' tgt = Some (Status_OK, mkIterator None)
  ∧ ∀ d ctxs,
      RestoreInternal full_name ctx w' tgt ≫= (λ x, fst <$> run d ctxs x.2)
      = Some (map (λ _, end_result) ctxs).
Proof.
  intros Hmark w'.
  assert (Hres : RestoreInternal full_name ctx w' tgt
                 = Some (Status_OK, mkIterator None)).
  { unfold RestoreInternal, Contains, w', SaveInternal. simpl.
    pose proof (Save_other_keys u w) as Hkey.
    destruct (Save u w) as [s w1]. simpl in *.
    rewrite bool_decide_eq_true_2 by (rewrite Hkey, Hmark; eauto). done. }
  split; [done|]. intros d ctxs. rewrite Hres. simpl.
  by rewrite run_exhausted.
Qed.
End StaleMark.

(** X11 on a slice iterator with four scalars left, saved into a writer that
    holds the mark. *)
Lemma stale_exhausted_mark_witness :
  RestoreInternal batch_full_name plentiful
    (SaveInternal batch_full_name (mkIterator (Some (mkSlice seven 3)))
       {[ batch_full_name kInputImplEmpty := ScalarString ""%string ]}).2
    (mkIterator (Some (mkSlice seven 0)))
  = Some (Status_OK, mkIterator None).
Proof.
  refine (proj1 (stale_exhausted_mark batch_full_name slice_Save_other_keys
                   plentiful (mkSlice seven 3)
                   (mkIterator (Some (mkSlice seven 0)))
                   {[ batch_full_name kInputImplEmpty := ScalarString ""%string ]}
                   (ScalarString ""%string) _)).
  apply lookup_singleton_eq.
Defined.

(** ** A kernel without the [parallel_copy] attribute *)

Lemma GetNextInternal_sequential_unjoined {U} `{!IteratorBase U} d ctx
    (it : Iterator U) out r it' :
  parallel_copy_ d = false →
  GetNextInternal d ctx it out = Some (r, it') →
  gn_unjoined r = [].
Proof.
  intros Hpar Hg. destruct it as [[u|]]; [|by injection Hg as <- <-].
  apply GetNextInternal_Some in Hg as (_ & _ & Hg).
  assert (Hr : r = (next_batch d ctx u out).1) by (by rewrite Hg).
  rewrite Hr. clear Hg Hr. unfold next_batch.
  destruct (pull_loop _ _ _ _) as [[[s eos] h] be].
  destruct (negb (ok s)); [done|].
  destruct (bool_decide (be = [])); [done|].
  destruct (_ && _); [done|].
  rewrite Hpar.
  destruct (assemble_loop_seq ctx ctx ltac:(done) be (length (be !!! 0)) 0 out)
    as [_ Hun].
  unfold assemble. by destruct (asm_return _).
Qed.

(** X12. A node without the [parallel_copy] attribute gives a kernel whose
    datasets copy sequentially: no call of their iterators, whatever the
    upstream and the arguments, leaves a copy task unjoined. *)
Theorem default_kernel_joins ctx k (args : gmap string ArgValue) input d :
  def_attr ctx !! kParallelCopy = None →
  BatchDatasetOp_new ctx = inr k →
  BatchDatasetOp_MakeDataset k args input = inr d →
  parallel_copy_ d = false
  ∧ ∀ U (HU : IteratorBase U) ictx (it : Iterator U) out r it',
      GetNextInternal d ictx it out = Some (r, it') →
      gn_unjoined r = [].
Proof.
  intros Hattr Hk Hd.
  assert (Hpar : parallel_copy_ d = false).
  { unfold BatchDatasetOp_new, HasAttr in Hk.
    rewrite bool_decide_eq_false_2 in Hk by (rewrite Hattr; by intros [? ?]).
    simplify_eq.
    apply BatchDatasetOp_MakeDataset_inr in Hd as (b & dr & _ & _ & _ & ->).
    done. }
  split; [done|]. intros. by eapply GetNextInternal_sequential_unjoined.
Qed.

(** X12 on the node of a V2 op without attributes. *)
Lemma default_kernel_joins_witness :
  parallel_copy_ (Dataset_new 3 true false (mkDatasetBase [DT_FLOAT] [[]] 7) 2)
  = false.
Proof.
  refine (proj1 (default_kernel_joins
            (mkConstruction "BatchDatasetV2" ∅) (mkBatchDatasetOp 2 false)
            (<[kBatchSize := ArgInt64 3]> (<[kDropRemainder := ArgBool true]> ∅))
            (mkDatasetBase [DT_FLOAT] [[]] 7)
            (Dataset_new 3 true false (mkDatasetBase [DT_FLOAT] [[]] 7) 2)
            _ _ _));
    vm_compute; reflexivity.
Defined.

(** ** The values of a slot, from the upstream to the batches *)

Lemma slot_values_app c rs1 rs2 :
  slot_values c (rs1 ++ rs2) = slot_values c rs1 ++ slot_values c rs2.
Proof. unfold slot_values. by rewrite map_app, concat_app. Qed.

Lemma slot_values_end c k : slot_values c (replicate k end_result) = [].
Proof. induction k as [|k IH]; [done|]. unfold slot_values in *. simpl. done. Qed.

Lemma slot_values_emitted sig c B :
  c < length sig →
  Forall (λ g, g ≠ [] ∧ Forall (conforms sig) g) B →
  slot_values c (map emitted B)
  = concat (map (λ e, default [] (buf (e !!! c))) (concat B)).
Proof.
  intros Hc. induction 1 as [|g B [Hne Hg] _ IH]; [done|].
  change (map emitted (g :: B)) with ([emitted g] ++ map emitted B).
  rewrite slot_values_app, IH. simpl. rewrite map_app, concat_app. f_equal.
  unfold slot_values. simpl. rewrite app_nil_r.
  destruct g as [|e0 rest] eqn:Hgeq; [done|]. rewrite <- Hgeq in *.
  assert (H0 : g !! 0 = Some e0) by (by rewrite Hgeq).
  assert (Hlen : length (g !!! 0) = length sig).
  { rewrite (list_lookup_total_correct _ _ _ H0).
    by apply (conforms_arity sig g Hg 0). }
  unfold stacked. rewrite Hlen.
  change (map ?f ?l) with (f <$> l).
  rewrite (list_lookup_total_correct _ c (stack_slot g c)).
  - done.
  - rewrite list_lookup_fmap, lookup_seq_lt by done. done.
Qed.

Section ValuesPreserved.
Variable sig : list (DataType * TensorShape).
Variable its : list (list Tensor).
Hypothesis its_conform : Forall (conforms sig) its.
Variable d : Dataset.
Hypothesis batch_size_positive : (0 < batch_size_ d)%Z.
Hypothesis batch_size_counts : counts d.
Hypothesis remainder_kept : drop_remainder_ d = false.

(** X13. Batching that keeps the remainder neither loses, repeats nor
    reorders values: over an upstream of conforming tuples, for a batch size
    that the counter of the pull loop can reach, in contexts whose allocator
    does not fail and that have room for the accumulation list, with enough
    calls to reach end-of-sequence, the calls all return and the
    values delivered for a slot, batch after batch, are the values of that
    slot in the tuples, tuple after tuple. *)
Theorem batching_preserves_values ctxs c :
  Forall generous ctxs → Forall (reserves d) ctxs →
  c < length sig →
  length (batches (Z.to_nat (batch_size_ d)) false its) ≤ length ctxs →
  slot_values c ∘ fst <$> run d ctxs (mkIterator (Some (mkSlice its 0)))
  = Some (concat (map (λ e, default [] (buf (e !!! c))) its)).
Proof.
  intros Hgen Hres Hc Hcalls.
  pose proof (run_slice_conforming its d batch_size_positive
                batch_size_counts sig ctxs 0 its_conform Hgen Hres) as Hrun.
  cbv zeta in Hrun. change (drop 0 its) with its in Hrun.
  rewrite remainder_kept in Hrun.
  rewrite (option_fmap_compose fst (slot_values c)), Hrun. simpl. f_equal.
  rewrite take_ge, slot_values_app, slot_values_end, app_nil_r by done.
  rewrite (slot_values_emitted sig) by (done || (apply batches_conform; [lia|done])).
  by rewrite concat_batches_keep by lia.
Qed.
End ValuesPreserved.

(** X13 on seven scalars in batches of three: the values 1 to 7 in three
    batches. *)
Lemma batching_preserves_values_witness :
  slot_values 0 ∘ fst
    <$> run (batch_of 3 false false)
          [plentiful; plentiful; plentiful; plentiful]
          (mkIterator (Some (mkSlice seven 0)))
  = Some [1; 2; 3; 4; 5; 6; 7]%Z.
Proof.
  assert (Hgen : Forall generous [plentiful; plentiful; plentiful; plentiful])
    by (repeat constructor).
  assert (Hres : Forall (reserves (batch_of 3 false false))
                   [plentiful; plentiful; plentiful; plentiful])
    by (repeat constructor).
  assert (Hint : counts (batch_of 3 false false))
    by (unfold counts, INT_MAX; simpl; lia).
  rewrite (batching_preserves_values [(DT_FLOAT, [])] seven seven_conforms
             (batch_of 3 false false) eq_refl Hint eq_refl _ 0 Hgen Hres).
  - reflexivity.
  - simpl. lia.
  - vm_compute. lia.
Defined.
